(** * GFS Winter Weather: a shallow embedding of the front end and of the
      back end's run cache

    The development follows the layout of the repository:

    - [JsString]: the two built-in string methods the station lookup relies
      on ([String.prototype.trim] and [String.prototype.toUpperCase]);
    - [MetarStations]: [frontend/src/metarStations.ts];
    - [UseForecast]: [frontend/src/useForecast.ts], the fetch hook and the
      response types it declares;
    - [LocationBar], [App], [ForecastPanel]: what the three components
      decide (which station is selected, which blocks are shown);
    - [ServiceWorker]: the offline-fallback service worker;
    - [Backend]: the run cache, on its own and shared by concurrent
      requests.  The Python sources of the back end are not part of the
      tree, so this module is written from the design document and says so
      at each definition.

    Definitions come first (Part I); the theorems about the claims follow
    (Part II), then further properties of the front end (Part III). *)

From Stdlib Require Import ZArith NArith QArith List String Ascii Bool Lia.
From Stdlib Require Import DecimalString DecimalPos DecimalN.
From stdpp Require Import base option list gmap strings.
Import ListNotations.

Set Warnings "-register-all".

Local Open Scope N_scope.

(* ===================================================================== *)
(** * Part I: the embedding                                               *)
(* ===================================================================== *)

(* --------------------------------------------------------------------- *)
(** ** JavaScript strings                                                 *)
(* --------------------------------------------------------------------- *)

Module JsString.

(** A JavaScript string is represented by the code points ECMAScript's
    [StringToCodePoints] reads off it (an unpaired surrogate is a code point
    of its own).  [trim] and [toUpperCase] are specified on that sequence,
    and [===] on two strings is equality of their sequences. *)
Definition jsstring := list N.

(** A literal of the source, every character of which is ASCII. *)
Definition js (s : string) : jsstring :=
  map N_of_ascii (list_ascii_of_string s).

(** [===] on two strings. *)
Fixpoint strict_eq (a b : jsstring) : bool :=
  match a, b with
  | [], [] => true
  | x :: a', y :: b' => (x =? y) && strict_eq a' b'
  | _, _ => false
  end.

(** ECMAScript's WhiteSpace production: TAB, VT, FF, ZWNBSP and the code
    points of general category Zs. *)
Definition is_white_space (c : N) : bool :=
  (c =? 0x9) || (c =? 0xB) || (c =? 0xC) || (c =? 0xFEFF) ||
  (c =? 0x20) || (c =? 0xA0) || (c =? 0x1680) ||
  ((0x2000 <=? c) && (c <=? 0x200A)) ||
  (c =? 0x202F) || (c =? 0x205F) || (c =? 0x3000).

(** ECMAScript's LineTerminator production: LF, CR, LS, PS. *)
Definition is_line_terminator (c : N) : bool :=
  (c =? 0xA) || (c =? 0xD) || (c =? 0x2028) || (c =? 0x2029).

(** What [trim] strips. *)
Definition is_trimmable (c : N) : bool :=
  is_white_space c || is_line_terminator c.

Fixpoint trim_start (s : jsstring) : jsstring :=
  match s with
  | [] => []
  | c :: s' => if is_trimmable c then trim_start s' else s
  end.

Fixpoint trim_end (s : jsstring) : jsstring :=
  match s with
  | [] => []
  | c :: s' =>
      match trim_end s' with
      | [] => if is_trimmable c then [] else [c]
      | r => c :: r
      end
  end.

(** [String.prototype.trim]. *)
Definition trim (s : jsstring) : jsstring := trim_end (trim_start s).

(** The simple upper-case mappings of the Unicode Character Database
    (version 14.0), run-length encoded: [(first, last, step, image)] sends
    [first + k * step], as long as it is at most [last], to
    [image + k * step]. *)
Definition simple_upper_ranges : list (N * N * N * N) :=
  [
    (0x61, 0x7A, 1, 0x41); (0xB5, 0xB5, 1, 0x39C); (0xE0, 0xF6, 1, 0xC0);
    (0xF8, 0xFE, 1, 0xD8); (0xFF, 0xFF, 1, 0x178); (0x101, 0x12F, 2, 0x100);
    (0x131, 0x131, 1, 0x49); (0x133, 0x137, 2, 0x132); (0x13A, 0x148, 2, 0x139);
    (0x14B, 0x177, 2, 0x14A); (0x17A, 0x17E, 2, 0x179); (0x17F, 0x17F, 1, 0x53);
    (0x180, 0x180, 1, 0x243); (0x183, 0x185, 2, 0x182); (0x188, 0x188, 1, 0x187);
    (0x18C, 0x18C, 1, 0x18B); (0x192, 0x192, 1, 0x191); (0x195, 0x195, 1, 0x1F6);
    (0x199, 0x199, 1, 0x198); (0x19A, 0x19A, 1, 0x23D); (0x19E, 0x19E, 1, 0x220);
    (0x1A1, 0x1A5, 2, 0x1A0); (0x1A8, 0x1A8, 1, 0x1A7); (0x1AD, 0x1AD, 1, 0x1AC);
    (0x1B0, 0x1B0, 1, 0x1AF); (0x1B4, 0x1B6, 2, 0x1B3); (0x1B9, 0x1B9, 1, 0x1B8);
    (0x1BD, 0x1BD, 1, 0x1BC); (0x1BF, 0x1BF, 1, 0x1F7); (0x1C5, 0x1C5, 1, 0x1C4);
    (0x1C6, 0x1C6, 1, 0x1C4); (0x1C8, 0x1C8, 1, 0x1C7); (0x1C9, 0x1C9, 1, 0x1C7);
    (0x1CB, 0x1CB, 1, 0x1CA); (0x1CC, 0x1CC, 1, 0x1CA); (0x1CE, 0x1DC, 2, 0x1CD);
    (0x1DD, 0x1DD, 1, 0x18E); (0x1DF, 0x1EF, 2, 0x1DE); (0x1F2, 0x1F2, 1, 0x1F1);
    (0x1F3, 0x1F3, 1, 0x1F1); (0x1F5, 0x1F5, 1, 0x1F4); (0x1F9, 0x21F, 2, 0x1F8);
    (0x223, 0x233, 2, 0x222); (0x23C, 0x23C, 1, 0x23B);
    (0x23F, 0x240, 1, 0x2C7E); (0x242, 0x242, 1, 0x241);
    (0x247, 0x24F, 2, 0x246); (0x250, 0x250, 1, 0x2C6F);
    (0x251, 0x251, 1, 0x2C6D); (0x252, 0x252, 1, 0x2C70);
    (0x253, 0x253, 1, 0x181); (0x254, 0x254, 1, 0x186); (0x256, 0x257, 1, 0x189);
    (0x259, 0x259, 1, 0x18F); (0x25B, 0x25B, 1, 0x190);
    (0x25C, 0x25C, 1, 0xA7AB); (0x260, 0x260, 1, 0x193);
    (0x261, 0x261, 1, 0xA7AC); (0x263, 0x263, 1, 0x194);
    (0x265, 0x265, 1, 0xA78D); (0x266, 0x266, 1, 0xA7AA);
    (0x268, 0x268, 1, 0x197); (0x269, 0x269, 1, 0x196);
    (0x26A, 0x26A, 1, 0xA7AE); (0x26B, 0x26B, 1, 0x2C62);
    (0x26C, 0x26C, 1, 0xA7AD); (0x26F, 0x26F, 1, 0x19C);
    (0x271, 0x271, 1, 0x2C6E); (0x272, 0x272, 1, 0x19D);
    (0x275, 0x275, 1, 0x19F); (0x27D, 0x27D, 1, 0x2C64);
    (0x280, 0x280, 1, 0x1A6); (0x282, 0x282, 1, 0xA7C5);
    (0x283, 0x283, 1, 0x1A9); (0x287, 0x287, 1, 0xA7B1);
    (0x288, 0x288, 1, 0x1AE); (0x289, 0x289, 1, 0x244); (0x28A, 0x28B, 1, 0x1B1);
    (0x28C, 0x28C, 1, 0x245); (0x292, 0x292, 1, 0x1B7);
    (0x29D, 0x29D, 1, 0xA7B2); (0x29E, 0x29E, 1, 0xA7B0);
    (0x345, 0x345, 1, 0x399); (0x371, 0x373, 2, 0x370); (0x377, 0x377, 1, 0x376);
    (0x37B, 0x37D, 1, 0x3FD); (0x3AC, 0x3AC, 1, 0x386); (0x3AD, 0x3AF, 1, 0x388);
    (0x3B1, 0x3C1, 1, 0x391); (0x3C2, 0x3C2, 1, 0x3A3); (0x3C3, 0x3CB, 1, 0x3A3);
    (0x3CC, 0x3CC, 1, 0x38C); (0x3CD, 0x3CE, 1, 0x38E); (0x3D0, 0x3D0, 1, 0x392);
    (0x3D1, 0x3D1, 1, 0x398); (0x3D5, 0x3D5, 1, 0x3A6); (0x3D6, 0x3D6, 1, 0x3A0);
    (0x3D7, 0x3D7, 1, 0x3CF); (0x3D9, 0x3EF, 2, 0x3D8); (0x3F0, 0x3F0, 1, 0x39A);
    (0x3F1, 0x3F1, 1, 0x3A1); (0x3F2, 0x3F2, 1, 0x3F9); (0x3F3, 0x3F3, 1, 0x37F);
    (0x3F5, 0x3F5, 1, 0x395); (0x3F8, 0x3F8, 1, 0x3F7); (0x3FB, 0x3FB, 1, 0x3FA);
    (0x430, 0x44F, 1, 0x410); (0x450, 0x45F, 1, 0x400); (0x461, 0x481, 2, 0x460);
    (0x48B, 0x4BF, 2, 0x48A); (0x4C2, 0x4CE, 2, 0x4C1); (0x4CF, 0x4CF, 1, 0x4C0);
    (0x4D1, 0x52F, 2, 0x4D0); (0x561, 0x586, 1, 0x531);
    (0x10D0, 0x10FA, 1, 0x1C90); (0x10FD, 0x10FF, 1, 0x1CBD);
    (0x13F8, 0x13FD, 1, 0x13F0); (0x1C80, 0x1C80, 1, 0x412);
    (0x1C81, 0x1C81, 1, 0x414); (0x1C82, 0x1C82, 1, 0x41E);
    (0x1C83, 0x1C84, 1, 0x421); (0x1C85, 0x1C85, 1, 0x422);
    (0x1C86, 0x1C86, 1, 0x42A); (0x1C87, 0x1C87, 1, 0x462);
    (0x1C88, 0x1C88, 1, 0xA64A); (0x1D79, 0x1D79, 1, 0xA77D);
    (0x1D7D, 0x1D7D, 1, 0x2C63); (0x1D8E, 0x1D8E, 1, 0xA7C6);
    (0x1E01, 0x1E95, 2, 0x1E00); (0x1E9B, 0x1E9B, 1, 0x1E60);
    (0x1EA1, 0x1EFF, 2, 0x1EA0); (0x1F00, 0x1F07, 1, 0x1F08);
    (0x1F10, 0x1F15, 1, 0x1F18); (0x1F20, 0x1F27, 1, 0x1F28);
    (0x1F30, 0x1F37, 1, 0x1F38); (0x1F40, 0x1F45, 1, 0x1F48);
    (0x1F51, 0x1F57, 2, 0x1F59); (0x1F60, 0x1F67, 1, 0x1F68);
    (0x1F70, 0x1F71, 1, 0x1FBA); (0x1F72, 0x1F75, 1, 0x1FC8);
    (0x1F76, 0x1F77, 1, 0x1FDA); (0x1F78, 0x1F79, 1, 0x1FF8);
    (0x1F7A, 0x1F7B, 1, 0x1FEA); (0x1F7C, 0x1F7D, 1, 0x1FFA);
    (0x1FB0, 0x1FB1, 1, 0x1FB8); (0x1FBE, 0x1FBE, 1, 0x399);
    (0x1FD0, 0x1FD1, 1, 0x1FD8); (0x1FE0, 0x1FE1, 1, 0x1FE8);
    (0x1FE5, 0x1FE5, 1, 0x1FEC); (0x214E, 0x214E, 1, 0x2132);
    (0x2170, 0x217F, 1, 0x2160); (0x2184, 0x2184, 1, 0x2183);
    (0x24D0, 0x24E9, 1, 0x24B6); (0x2C30, 0x2C5F, 1, 0x2C00);
    (0x2C61, 0x2C61, 1, 0x2C60); (0x2C65, 0x2C65, 1, 0x23A);
    (0x2C66, 0x2C66, 1, 0x23E); (0x2C68, 0x2C6C, 2, 0x2C67);
    (0x2C73, 0x2C73, 1, 0x2C72); (0x2C76, 0x2C76, 1, 0x2C75);
    (0x2C81, 0x2CE3, 2, 0x2C80); (0x2CEC, 0x2CEE, 2, 0x2CEB);
    (0x2CF3, 0x2CF3, 1, 0x2CF2); (0x2D00, 0x2D25, 1, 0x10A0);
    (0x2D27, 0x2D27, 1, 0x10C7); (0x2D2D, 0x2D2D, 1, 0x10CD);
    (0xA641, 0xA66D, 2, 0xA640); (0xA681, 0xA69B, 2, 0xA680);
    (0xA723, 0xA72F, 2, 0xA722); (0xA733, 0xA76F, 2, 0xA732);
    (0xA77A, 0xA77C, 2, 0xA779); (0xA77F, 0xA787, 2, 0xA77E);
    (0xA78C, 0xA78C, 1, 0xA78B); (0xA791, 0xA793, 2, 0xA790);
    (0xA794, 0xA794, 1, 0xA7C4); (0xA797, 0xA7A9, 2, 0xA796);
    (0xA7B5, 0xA7C3, 2, 0xA7B4); (0xA7C8, 0xA7CA, 2, 0xA7C7);
    (0xA7D1, 0xA7D1, 1, 0xA7D0); (0xA7D7, 0xA7D9, 2, 0xA7D6);
    (0xA7F6, 0xA7F6, 1, 0xA7F5); (0xAB53, 0xAB53, 1, 0xA7B3);
    (0xAB70, 0xABBF, 1, 0x13A0); (0xFF41, 0xFF5A, 1, 0xFF21);
    (0x10428, 0x1044F, 1, 0x10400); (0x104D8, 0x104FB, 1, 0x104B0);
    (0x10597, 0x105A1, 1, 0x10570); (0x105A3, 0x105B1, 1, 0x1057C);
    (0x105B3, 0x105B9, 1, 0x1058C); (0x105BB, 0x105BC, 1, 0x10594);
    (0x10CC0, 0x10CF2, 1, 0x10C80); (0x118C0, 0x118DF, 1, 0x118A0);
    (0x16E60, 0x16E7F, 1, 0x16E40); (0x1E922, 0x1E943, 1, 0x1E900)
  ].

(** The mappings of [SpecialCasing.txt] that are neither conditional nor
    language-sensitive: code points whose upper case is several code
    points. *)
Definition special_upper : list (N * list N) :=
  [
    (0xDF, [0x53; 0x53]); (0x149, [0x2BC; 0x4E]); (0x1F0, [0x4A; 0x30C]);
    (0x390, [0x399; 0x308; 0x301]); (0x3B0, [0x3A5; 0x308; 0x301]);
    (0x587, [0x535; 0x552]); (0x1E96, [0x48; 0x331]); (0x1E97, [0x54; 0x308]);
    (0x1E98, [0x57; 0x30A]); (0x1E99, [0x59; 0x30A]); (0x1E9A, [0x41; 0x2BE]);
    (0x1F50, [0x3A5; 0x313]); (0x1F52, [0x3A5; 0x313; 0x300]);
    (0x1F54, [0x3A5; 0x313; 0x301]); (0x1F56, [0x3A5; 0x313; 0x342]);
    (0x1F80, [0x1F08; 0x399]); (0x1F81, [0x1F09; 0x399]);
    (0x1F82, [0x1F0A; 0x399]); (0x1F83, [0x1F0B; 0x399]);
    (0x1F84, [0x1F0C; 0x399]); (0x1F85, [0x1F0D; 0x399]);
    (0x1F86, [0x1F0E; 0x399]); (0x1F87, [0x1F0F; 0x399]);
    (0x1F88, [0x1F08; 0x399]); (0x1F89, [0x1F09; 0x399]);
    (0x1F8A, [0x1F0A; 0x399]); (0x1F8B, [0x1F0B; 0x399]);
    (0x1F8C, [0x1F0C; 0x399]); (0x1F8D, [0x1F0D; 0x399]);
    (0x1F8E, [0x1F0E; 0x399]); (0x1F8F, [0x1F0F; 0x399]);
    (0x1F90, [0x1F28; 0x399]); (0x1F91, [0x1F29; 0x399]);
    (0x1F92, [0x1F2A; 0x399]); (0x1F93, [0x1F2B; 0x399]);
    (0x1F94, [0x1F2C; 0x399]); (0x1F95, [0x1F2D; 0x399]);
    (0x1F96, [0x1F2E; 0x399]); (0x1F97, [0x1F2F; 0x399]);
    (0x1F98, [0x1F28; 0x399]); (0x1F99, [0x1F29; 0x399]);
    (0x1F9A, [0x1F2A; 0x399]); (0x1F9B, [0x1F2B; 0x399]);
    (0x1F9C, [0x1F2C; 0x399]); (0x1F9D, [0x1F2D; 0x399]);
    (0x1F9E, [0x1F2E; 0x399]); (0x1F9F, [0x1F2F; 0x399]);
    (0x1FA0, [0x1F68; 0x399]); (0x1FA1, [0x1F69; 0x399]);
    (0x1FA2, [0x1F6A; 0x399]); (0x1FA3, [0x1F6B; 0x399]);
    (0x1FA4, [0x1F6C; 0x399]); (0x1FA5, [0x1F6D; 0x399]);
    (0x1FA6, [0x1F6E; 0x399]); (0x1FA7, [0x1F6F; 0x399]);
    (0x1FA8, [0x1F68; 0x399]); (0x1FA9, [0x1F69; 0x399]);
    (0x1FAA, [0x1F6A; 0x399]); (0x1FAB, [0x1F6B; 0x399]);
    (0x1FAC, [0x1F6C; 0x399]); (0x1FAD, [0x1F6D; 0x399]);
    (0x1FAE, [0x1F6E; 0x399]); (0x1FAF, [0x1F6F; 0x399]);
    (0x1FB2, [0x1FBA; 0x399]); (0x1FB3, [0x391; 0x399]);
    (0x1FB4, [0x386; 0x399]); (0x1FB6, [0x391; 0x342]);
    (0x1FB7, [0x391; 0x342; 0x399]); (0x1FBC, [0x391; 0x399]);
    (0x1FC2, [0x1FCA; 0x399]); (0x1FC3, [0x397; 0x399]);
    (0x1FC4, [0x389; 0x399]); (0x1FC6, [0x397; 0x342]);
    (0x1FC7, [0x397; 0x342; 0x399]); (0x1FCC, [0x397; 0x399]);
    (0x1FD2, [0x399; 0x308; 0x300]); (0x1FD3, [0x399; 0x308; 0x301]);
    (0x1FD6, [0x399; 0x342]); (0x1FD7, [0x399; 0x308; 0x342]);
    (0x1FE2, [0x3A5; 0x308; 0x300]); (0x1FE3, [0x3A5; 0x308; 0x301]);
    (0x1FE4, [0x3A1; 0x313]); (0x1FE6, [0x3A5; 0x342]);
    (0x1FE7, [0x3A5; 0x308; 0x342]); (0x1FF2, [0x1FFA; 0x399]);
    (0x1FF3, [0x3A9; 0x399]); (0x1FF4, [0x38F; 0x399]); (0x1FF6, [0x3A9; 0x342]);
    (0x1FF7, [0x3A9; 0x342; 0x399]); (0x1FFC, [0x3A9; 0x399]);
    (0xFB00, [0x46; 0x46]); (0xFB01, [0x46; 0x49]); (0xFB02, [0x46; 0x4C]);
    (0xFB03, [0x46; 0x46; 0x49]); (0xFB04, [0x46; 0x46; 0x4C]);
    (0xFB05, [0x53; 0x54]); (0xFB06, [0x53; 0x54]); (0xFB13, [0x544; 0x546]);
    (0xFB14, [0x544; 0x535]); (0xFB15, [0x544; 0x53B]); (0xFB16, [0x54E; 0x546]);
    (0xFB17, [0x544; 0x53D])
  ].

Fixpoint expand_range (count : nat) (src step img : N) : list (N * list N) :=
  match count with
  | O => []
  | S k => (src, [img]) :: expand_range k (src + step) step (img + step)
  end.

Definition expand (r : N * N * N * N) : list (N * list N) :=
  let '(first, last, step, img) := r in
  expand_range (S (N.to_nat ((last - first) / step))) first step img.

(** The whole mapping as an association list; a code point that is not
    listed is its own upper case. *)
Definition upper_table : list (N * list N) :=
  Eval vm_compute in special_upper ++ flat_map expand simple_upper_ranges.

Fixpoint assoc (c : N) (t : list (N * list N)) : option (list N) :=
  match t with
  | [] => None
  | (k, v) :: t' => if c =? k then Some v else assoc c t'
  end.

Definition upper_cp (c : N) : list N :=
  match assoc c upper_table with
  | Some v => v
  | None => [c]
  end.

(** [String.prototype.toUpperCase]: the locale-insensitive full case
    mapping, code point by code point. *)
Definition toUpperCase (s : jsstring) : jsstring := flat_map upper_cp s.

(** A string with nothing for [trim] to strip at its start, or at its end. *)
Definition starts_clean (s : jsstring) : Prop :=
  match s with
  | [] => True
  | c :: _ => is_trimmable c = false
  end.

Fixpoint ends_clean (s : jsstring) : Prop :=
  match s with
  | [] => True
  | c :: s' =>
      match s' with
      | [] => is_trimmable c = false
      | _ :: _ => ends_clean s'
      end
  end.

(** The two facts about the case-mapping table the station lookup depends
    on, as one check over the table: an image is never empty, and no code
    point of an image is stripped by [trim] or mapped again. *)
Definition unmapped (x : N) : bool :=
  match assoc x upper_table with
  | None => true
  | Some _ => false
  end.

Definition image_ok (v : list N) : bool :=
  match v with
  | [] => false
  | _ :: _ => forallb (fun x => negb (is_trimmable x) && unmapped x) v
  end.

Definition table_ok : bool := forallb (fun e => image_ok (snd e)) upper_table.

End JsString.

(* --------------------------------------------------------------------- *)
(** ** [frontend/src/metarStations.ts]                                    *)
(* --------------------------------------------------------------------- *)

Module MetarStations.
Import JsString.

(** Coordinates are decimal fractions with at most four digits after the
    point; they are carried as integers in units of 1/10000 degree. *)
Record MetarStation := {
  icao : jsstring;
  name : jsstring;
  lat : Z;
  lon : Z
}.

Definition METAR_STATIONS : list MetarStation :=
  [ {| icao := js "KDOV"; name := js "Dover AFB, DE";
       lat := 391295; lon := -754660 |};
    {| icao := js "KPHL"; name := js "Philadelphia, PA";
       lat := 398729; lon := -752437 |};
    {| icao := js "KBWI"; name := js "Baltimore (BWI), MD";
       lat := 391754; lon := -766683 |};
    {| icao := js "KDCA"; name := js "Washington Reagan, DC";
       lat := 388521; lon := -770377 |};
    {| icao := js "KIAD"; name := js "Washington Dulles, VA";
       lat := 389445; lon := -774558 |};
    {| icao := js "KNYC"; name := js "New York (Central Park)";
       lat := 407790; lon := -739692 |};
    {| icao := js "KJFK"; name := js "New York JFK";
       lat := 406398; lon := -737789 |};
    {| icao := js "KBOS"; name := js "Boston, MA";
       lat := 423656; lon := -710096 |};
    {| icao := js "KORD"; name := js "Chicago O'Hare, IL";
       lat := 419742; lon := -879073 |};
    {| icao := js "KDEN"; name := js "Denver, CO";
       lat := 398617; lon := -1046731 |} ].

(** [Array.prototype.find]: the first element the predicate accepts,
    [undefined] ([None]) when there is none. *)
Fixpoint array_find {A : Type} (p : A -> bool) (l : list A) : option A :=
  match l with
  | [] => None
  | x :: l' => if p x then Some x else array_find p l'
  end.

(** [METAR_STATIONS[0]]. *)
Definition DEFAULT_STATION : option MetarStation := head METAR_STATIONS.

Definition getStationByIcao (icao_arg : jsstring) : option MetarStation :=
  let upper := toUpperCase (trim icao_arg) in
  array_find (fun s => strict_eq (icao s) upper) METAR_STATIONS.

(** *** The spellings a station code accepts *)

(** The capital letters A to Z. *)
Definition capitals : list N := map N.of_nat (seq 65 26).

Definition capital (k : N) : bool := existsb (N.eqb k) capitals.

(** [c] is a way to write the capital letter [k]: the letter itself, its
    small form, or one of the two other code points whose upper case is a
    capital ASCII letter (dotless i for I, long s for S). *)
Definition spells (c k : N) : Prop :=
  c = k \/ c = k + 32 \/ (c = 0x131 /\ k = 0x49) \/ (c = 0x17F /\ k = 0x53).

Definition spellsb (c k : N) : bool :=
  (c =? k) || (c =? k + 32) ||
  ((c =? 0x131) && (k =? 0x49)) || ((c =? 0x17F) && (k =? 0x53)).

Fixpoint is_prefix (v s : jsstring) : bool :=
  match v, s with
  | [], _ => true
  | x :: v', y :: s' => (x =? y) && is_prefix v' s'
  | _ :: _, [] => false
  end.

(** Checks over the case-mapping table: every code point whose upper
    case is one capital letter spells it; *)
Definition letters_spelt : bool :=
  forallb (fun e => match snd e with
                    | [x] => negb (capital x) || spellsb (fst e) x
                    | _ => true
                    end) upper_table.

(** some code point has an upper case of several code points that [K]
    starts with; *)
Definition expands_into (K : jsstring) : bool :=
  existsb (fun e => match snd e with
                    | _ :: _ :: _ => is_prefix (snd e) K
                    | _ => false
                    end) upper_table.

(** [K] is made of capital letters, and no upper case of several code
    points occurs in it; *)
Fixpoint plain_code (K : jsstring) : bool :=
  match K with
  | [] => true
  | k :: K' => capital k && negb (expands_into K) && plain_code K'
  end.

(** the capital letters are their own upper case and that of their small
    forms, and so for the two other code points. *)
Definition capitals_ok : bool :=
  forallb (fun k => unmapped k && strict_eq (upper_cp (k + 32)) [k]) capitals &&
  strict_eq (upper_cp 0x131) [0x49] && strict_eq (upper_cp 0x17F) [0x53].

End MetarStations.

(* --------------------------------------------------------------------- *)
(** ** [frontend/src/useForecast.ts]                                      *)
(* --------------------------------------------------------------------- *)

Module UseForecast.
Import JsString.

(** What [Response.json()] can produce. *)
Inductive json :=
| JNull
| JBool (b : bool)
| JNum (n : Q)
| JStr (s : jsstring)
| JArr (items : list json)
| JObj (fields : list (jsstring * json)).

(** The interfaces the module exports, as records, for the components
    that receive a value TypeScript has typed.  A field declared [T | null]
    or [f?: T] is an [option]. *)
Module PossibleItem.
Record t := {
  message : jsstring;
  date_range : jsstring
}.
End PossibleItem.

Module DetailedItem.
Record t := {
  start_time : jsstring;
  end_time : jsstring;
  duration_hours : Q;
  snow_inches : Q;
  category : jsstring;
  lead_hours : Q
}.
End DetailedItem.

Module FinalCallItem.
Record t := {
  message : jsstring;
  start_time : jsstring;
  end_time : jsstring;
  duration_hours : Q;
  snow_inches : Q;
  category : jsstring
}.
End FinalCallItem.

Record ForecastResponse := {
  possible : option PossibleItem.t;
  detailed : list DetailedItem.t;
  finalCall : option FinalCallItem.t;
  last_updated : option jsstring;
  runs_used : Q;
  lat : option Q;
  lon : option Q;
  message : option jsstring
}.

(** A value a [try] block can catch: an [Error] with its [message], or
    anything else that was thrown. *)
Inductive thrown :=
| ThrownError (message : jsstring)
| ThrownOther.

(** The outcome of awaiting a promise. *)
Inductive awaited (A : Type) :=
| Resolved (a : A)
| Threw (e : thrown).
Arguments Resolved {A} a.
Arguments Threw {A} e.

(** What the hook reads of the [Response] that [fetch] resolves with. *)
Record HttpResponse := {
  ok : bool;
  status : N;
  text : awaited jsstring;
  json_body : awaited json
}.

(** The three [useState] cells; [JNull] is [null]. *)
Record HookState := {
  data : json;
  error : option jsstring;
  loading : bool
}.

Definition initial_state : HookState :=
  {| data := JNull; error := None; loading := false |}.

Definition setData (v : json) (s : HookState) : HookState :=
  {| data := v; error := error s; loading := loading s |}.

Definition setError (v : option jsstring) (s : HookState) : HookState :=
  {| data := data s; error := v; loading := loading s |}.

Definition setLoading (v : bool) (s : HookState) : HookState :=
  {| data := data s; error := error s; loading := v |}.

(** [`HTTP ${r.status}`] *)
Definition http_status_message (st : N) : jsstring :=
  js "HTTP " ++ js (NilZero.string_of_uint (N.to_uint st)).

(** [t || `HTTP ${r.status}`]: the empty string is falsy. *)
Definition error_text (t : jsstring) (st : N) : jsstring :=
  match t with
  | [] => http_status_message st
  | _ :: _ => t
  end.

(** The [try] block up to [setData]: the value it hands to [setData], or
    what it throws. *)
Definition try_block (fetched : awaited HttpResponse) : awaited json :=
  match fetched with
  | Threw e => Threw e
  | Resolved r =>
      if negb (ok r) then
        match text r with
        | Threw e => Threw e
        | Resolved t => Threw (ThrownError (error_text t (status r)))
        end
      else json_body r
  end.

(** [e instanceof Error ? e.message : "Request failed"] *)
Definition catch_message (e : thrown) : jsstring :=
  match e with
  | ThrownError m => m
  | ThrownOther => js "Request failed"
  end.

(** The state updates of one call, in two parts: what runs synchronously
    when [fetchForecast] is invoked, and what runs once its last [await]
    has settled ([setData], or the [catch] block, then [finally]).  No
    state is touched in between. *)
Definition on_invoke (s : HookState) : HookState :=
  setError None (setLoading true s).

Definition on_settle (fetched : awaited HttpResponse) (s : HookState) : HookState :=
  match try_block fetched with
  | Resolved v => setLoading false (setData v s)
  | Threw e => setLoading false (setData JNull (setError (Some (catch_message e)) s))
  end.

(** A call that nothing interleaves with. *)
Definition fetchForecast (fetched : awaited HttpResponse) (s : HookState) : HookState :=
  on_settle fetched (on_invoke s).

(** The hook over time.  The button that calls [fetchForecast] stays
    enabled while a request is in flight, so invocations and completions of
    different calls may interleave. *)
Inductive event :=
| Invoked
| Settled (fetched : awaited HttpResponse).

Definition step (s : HookState) (e : event) : HookState :=
  match e with
  | Invoked => on_invoke s
  | Settled fetched => on_settle fetched s
  end.

Definition run (s : HookState) (tr : list event) : HookState :=
  fold_left step tr s.

(** Calls in flight after a trace, [None] when the trace completes a call
    that was never started. *)
Fixpoint in_flight (n : nat) (tr : list event) : option nat :=
  match tr with
  | [] => Some n
  | Invoked :: tr' => in_flight (S n) tr'
  | Settled _ :: tr' =>
      match n with
      | O => None
      | S k => in_flight k tr'
      end
  end.

Definition well_formed (tr : list event) : Prop := is_Some (in_flight 0 tr).

(** The event is the successful completion of a call. *)
Definition settles_well (e : event) : bool :=
  match e with
  | Settled f => match try_block f with Resolved _ => true | Threw _ => false end
  | Invoked => false
  end.

(** No call has failed since the most recent invocation. *)
Fixpoint quiet_since_invoke (tr : list event) : bool :=
  match tr with
  | [] => false
  | Invoked :: tr' => quiet_since_invoke tr' || forallb settles_well tr'
  | Settled _ :: tr' => quiet_since_invoke tr'
  end.

(** What the hook is expected to hold once a call has completed. *)
Definition settled_as_expected (fetched : awaited HttpResponse) (s : HookState) : Prop :=
  loading s = false /\
  match try_block fetched with
  | Resolved v => data s = v /\ error s = None
  | Threw _ => data s = JNull /\ exists m, error s = Some m
  end.

(** A response the server answers with [200] and a body that parses. *)
Definition sample_ok : awaited HttpResponse :=
  Resolved {| ok := true; status := 200;
              text := Resolved (js "{}"); json_body := Resolved (JObj []) |}.

(** A request the network layer rejects. *)
Definition sample_failure : awaited HttpResponse :=
  Threw (ThrownError (js "Failed to fetch")).

(** *** Parsed values of the declared types *)

(** [o[k]] on an object as [JSON.parse] builds it, every key once; [None]
    is [undefined]. *)
Fixpoint get_property (k : jsstring) (o : list (jsstring * json)) : option json :=
  match o with
  | [] => None
  | (k', v) :: rest => if strict_eq k k' then Some v else get_property k rest
  end.

Definition as_string (v : json) : option jsstring :=
  match v with JStr s => Some s | _ => None end.

Definition as_number (v : json) : option Q :=
  match v with JNum n => Some n | _ => None end.

(** A field declared [f: T], [f: T | null] and [f?: T]. *)
Definition required {A} (f : json -> option A) (v : option json) : option A :=
  match v with Some x => f x | None => None end.

Definition nullable {A} (f : json -> option A) (v : option json) : option (option A) :=
  match v with
  | Some JNull => Some None
  | Some x => Some <$> f x
  | None => None
  end.

Definition optional {A} (f : json -> option A) (v : option json) : option (option A) :=
  match v with
  | Some x => Some <$> f x
  | None => Some None
  end.

(** The parsed value read at the interfaces of lines 3 to 35; [None] when
    it is not of the declared type. *)
Definition as_PossibleItem (v : json) : option PossibleItem.t :=
  match v with
  | JObj o =>
      m ← required as_string (get_property (js "message") o);
      r ← required as_string (get_property (js "date_range") o);
      Some {| PossibleItem.message := m; PossibleItem.date_range := r |}
  | _ => None
  end.

Definition as_DetailedItem (v : json) : option DetailedItem.t :=
  match v with
  | JObj o =>
      st ← required as_string (get_property (js "start_time") o);
      en ← required as_string (get_property (js "end_time") o);
      du ← required as_number (get_property (js "duration_hours") o);
      sn ← required as_number (get_property (js "snow_inches") o);
      ca ← required as_string (get_property (js "category") o);
      le ← required as_number (get_property (js "lead_hours") o);
      Some {| DetailedItem.start_time := st; DetailedItem.end_time := en;
              DetailedItem.duration_hours := du; DetailedItem.snow_inches := sn;
              DetailedItem.category := ca; DetailedItem.lead_hours := le |}
  | _ => None
  end.

Definition as_FinalCallItem (v : json) : option FinalCallItem.t :=
  match v with
  | JObj o =>
      m ← required as_string (get_property (js "message") o);
      st ← required as_string (get_property (js "start_time") o);
      en ← required as_string (get_property (js "end_time") o);
      du ← required as_number (get_property (js "duration_hours") o);
      sn ← required as_number (get_property (js "snow_inches") o);
      ca ← required as_string (get_property (js "category") o);
      Some {| FinalCallItem.message := m; FinalCallItem.start_time := st;
              FinalCallItem.end_time := en; FinalCallItem.duration_hours := du;
              FinalCallItem.snow_inches := sn; FinalCallItem.category := ca |}
  | _ => None
  end.

Definition as_array {A} (f : json -> option A) (v : json) : option (list A) :=
  match v with JArr items => mapM f items | _ => None end.

Definition as_ForecastResponse (v : json) : option ForecastResponse :=
  match v with
  | JObj o =>
      p ← nullable as_PossibleItem (get_property (js "possible") o);
      d ← required (as_array as_DetailedItem) (get_property (js "detailed") o);
      f ← nullable as_FinalCallItem (get_property (js "finalCall") o);
      u ← nullable as_string (get_property (js "last_updated") o);
      n ← required as_number (get_property (js "runs_used") o);
      la ← optional as_number (get_property (js "lat") o);
      lo ← optional as_number (get_property (js "lon") o);
      m ← optional as_string (get_property (js "message") o);
      Some {| possible := p; detailed := d; finalCall := f; last_updated := u;
              runs_used := n; lat := la; lon := lo; message := m |}
  | _ => None
  end.

(** A body of the declared type: one window two days out. *)
Definition sample_body : json :=
  JObj [(js "possible", JNull);
        (js "detailed",
         JArr [JObj [(js "start_time", JStr (js "2026-01-10T06:00:00Z"));
                     (js "end_time", JStr (js "2026-01-10T18:00:00Z"));
                     (js "duration_hours", JNum 12);
                     (js "snow_inches", JNum (5 # 2));
                     (js "category", JStr (js "moderate"));
                     (js "lead_hours", JNum 48)]]);
        (js "finalCall", JNull);
        (js "last_updated", JStr (js "2026-01-08T06:00:00Z"));
        (js "runs_used", JNum 2)].

Definition sample_forecast : awaited HttpResponse :=
  Resolved {| ok := true; status := 200; text := Resolved [];
              json_body := Resolved sample_body |}.

(** *** The request URL *)

(** [import.meta.env], as far as the hook reads it. *)
Record Env := {
  DEV : bool;
  VITE_API_URL : option jsstring
}.

(** [import.meta.env.DEV ? "/api" : (import.meta.env.VITE_API_URL ?? "")] *)
Definition base (env : Env) : jsstring :=
  if DEV env then js "/api"
  else match VITE_API_URL env with
       | Some u => u
       | None => []
       end.

Definition digit (d : N) : N := 0x30 + d.

Definition decimal (n : N) : jsstring :=
  js (NilZero.string_of_uint (N.to_uint n)).

(** The four digits of a fraction given in 1/10000, without the zeros at
    its end. *)
Definition fraction_digits (f : N) : list N :=
  [f / 1000; (f / 100) mod 10; (f / 10) mod 10; f mod 10].

Fixpoint strip_zeros (ds : list N) : list N :=
  match ds with
  | [] => []
  | d :: ds' =>
      match strip_zeros ds' with
      | [] => if d =? 0 then [] else [d]
      | r => d :: r
      end
  end.

(** The fraction as printed: nothing when it is zero, a point and its
    digits otherwise. *)
Definition fraction_to_string (f : N) : jsstring :=
  match strip_zeros (fraction_digits f) with
  | [] => []
  | ds => js "." ++ map digit ds
  end.

Definition magnitude_to_string (a : N) : jsstring :=
  decimal (a / 10000) ++ fraction_to_string (a mod 10000).

(** [Number.prototype.toString] on a coordinate.  A coordinate is a
    decimal fraction with at most four digits after the point, carried in
    units of 1/10000 degree as in [MetarStations]; for such a number
    below 10^21 JavaScript prints the sign, the integer part, and the
    fraction without trailing zeros when there is one. *)
Definition number_to_string (x : Z) : jsstring :=
  (if (x <? 0)%Z then js "-" else []) ++ magnitude_to_string (Z.abs_N x).

Definition is_digit (c : N) : bool := (0x30 <=? c) && (c <=? 0x39).

(** Latitude and longitude within range, in units of 1/10000 degree. *)
Definition valid_coordinates (lat lon : Z) : Prop :=
  (-900000 <= lat <= 900000)%Z /\ (-1800000 <= lon <= 1800000)%Z.

(** The characters [encodeURIComponent] leaves as they are: letters,
    digits and [- _ . ! ~ * ' ( )]. *)
Definition unreserved (c : N) : bool :=
  ((0x41 <=? c) && (c <=? 0x5A)) || ((0x61 <=? c) && (c <=? 0x7A)) ||
  ((0x30 <=? c) && (c <=? 0x39)) ||
  existsb (N.eqb c) (js "-_.!~*'()").

Definition hex_digit (d : N) : N :=
  if d <? 10 then 0x30 + d else 0x41 + (d - 10).

(** [%XX] for one octet. *)
Definition percent (octet : N) : jsstring :=
  [0x25; hex_digit (octet / 16); hex_digit (octet mod 16)].

(** The UTF-8 octets of a code point; [None] for a surrogate, on which
    [encodeURIComponent] throws a [URIError]. *)
Definition utf8 (c : N) : option (list N) :=
  if c <? 0x80 then Some [c]
  else if c <? 0x800 then Some [0xC0 + c / 64; 0x80 + c mod 64]
  else if (0xD800 <=? c) && (c <=? 0xDFFF) then None
  else if c <? 0x10000 then
    Some [0xE0 + c / 4096; 0x80 + (c / 64) mod 64; 0x80 + c mod 64]
  else if c <? 0x110000 then
    Some [0xF0 + c / 262144; 0x80 + (c / 4096) mod 64;
          0x80 + (c / 64) mod 64; 0x80 + c mod 64]
  else None.

(** [encodeURIComponent]; [None] when it throws. *)
Fixpoint encodeURIComponent (s : jsstring) : option jsstring :=
  match s with
  | [] => Some []
  | c :: s' =>
      match encodeURIComponent s' with
      | None => None
      | Some rest =>
          if unreserved c then Some (c :: rest)
          else match utf8 c with
               | Some octets => Some (flat_map percent octets ++ rest)
               | None => None
               end
      end
  end.

(** The argument of [fetch]; [None] when building it throws. *)
Definition forecast_url (env : Env) (lat lon : Z) : option jsstring :=
  match encodeURIComponent (number_to_string lat),
        encodeURIComponent (number_to_string lon) with
  | Some a, Some b =>
      Some (base env ++ js "/forecast?lat=" ++ a ++ js "&lon=" ++ b ++
            js "&complete_only=1")
  | _, _ => None
  end.

(** The URL with the coordinates written out in decimal. *)
Definition plain_url (env : Env) (lat lon : Z) : jsstring :=
  base env ++ js "/forecast?lat=" ++ number_to_string lat ++
  js "&lon=" ++ number_to_string lon ++ js "&complete_only=1".

End UseForecast.

(* --------------------------------------------------------------------- *)
(** ** [LocationBar.tsx], [App.tsx] and [ForecastPanel.tsx]               *)
(* --------------------------------------------------------------------- *)

Module LocationBar.
Import JsString MetarStations.

(** [handleChange]: the station handed to [onSelectStation], [None] when
    the callback is not called.  [value] is [e.target.value]. *)
Definition handleChange (value : jsstring) : option MetarStation :=
  array_find (fun s => strict_eq (icao s) value) METAR_STATIONS.

(** The [value] attributes of the options the component renders. *)
Definition option_values : list jsstring := map icao METAR_STATIONS.

End LocationBar.

Module App.
Import JsString UseForecast.

(** JavaScript's truthiness, for a parsed value and for [string | null]. *)
Definition truthy (v : json) : bool :=
  match v with
  | JNull => false
  | JBool b => b
  | JNum n => negb (Qeq_bool n 0)
  | JStr s => match s with [] => false | _ :: _ => true end
  | JArr _ | JObj _ => true
  end.

Definition truthy_string (s : option jsstring) : bool :=
  match s with
  | Some (_ :: _) => true
  | _ => false
  end.

(** What [App] puts below the location bar.  [ZeroText] is the ["0"]
    React prints for an expression [data && ...] whose [data] is the
    number zero. *)
Inductive block :=
| LoadingBox
| ErrorBox (text : jsstring)
| Panel (data : json)
| ZeroText
| NoDataNotice.

Definition when {A} (b : bool) (x : A) : list A := if b then [x] else [].

(** [{data && !loading && <ForecastPanel data={data} ... />}] *)
Definition panel_slot (s : HookState) : list block :=
  if truthy (data s) then when (negb (loading s)) (Panel (data s))
  else match data s with
       | JNum _ => [ZeroText]
       | _ => []
       end.

(** The four conditional blocks of the [return] of [App]; [hasFetched] is
    [hasFetched.current]. *)
Definition render (s : HookState) (hasFetched : bool) : list block :=
  when (loading s) LoadingBox ++
  match error s with
  | Some (c :: text) => [ErrorBox (c :: text)]
  | _ => []
  end ++
  panel_slot s ++
  when (negb (truthy (data s)) && negb (loading s) &&
        negb (truthy_string (error s)) && hasFetched) NoDataNotice.

(** *** The component over time *)

(** [selectedStation], the hook's cells, [hasFetched.current], and the
    URLs handed to [fetch] so far, the latest first. *)
Record AppState := {
  selectedStation : MetarStations.MetarStation;
  hook : HookState;
  hasFetched : bool;
  requests : list (option jsstring)
}.

(** [DEFAULT_STATION] as a station. *)
Definition first_station : MetarStations.MetarStation :=
  match MetarStations.METAR_STATIONS with
  | st :: _ => st
  | [] => {| MetarStations.icao := []; MetarStations.name := [];
             MetarStations.lat := 0; MetarStations.lon := 0 |}
  end.

Definition initial_app : AppState :=
  {| selectedStation := first_station; hook := initial_state;
     hasFetched := false; requests := [] |}.

(** What can happen to [App]: the select box changes to a value, the
    button is pressed, a request in flight settles. *)
Inductive app_event :=
| Changed (value : jsstring)
| GetForecast
| Answered (fetched : awaited HttpResponse).

(** [handleChange] with [handleSelectStation] as its callback;
    [handleGetForecast]; and the settling of a call of the hook. *)
Definition app_step (env : Env) (st : AppState) (e : app_event) : AppState :=
  match e with
  | Changed value =>
      match LocationBar.handleChange value with
      | Some station =>
          {| selectedStation := station; hook := hook st;
             hasFetched := hasFetched st; requests := requests st |}
      | None => st
      end
  | GetForecast =>
      {| selectedStation := selectedStation st;
         hook := on_invoke (hook st);
         hasFetched := true;
         requests :=
           forecast_url env (MetarStations.lat (selectedStation st))
                            (MetarStations.lon (selectedStation st))
           :: requests st |}
  | Answered fetched =>
      {| selectedStation := selectedStation st;
         hook := on_settle fetched (hook st);
         hasFetched := hasFetched st; requests := requests st |}
  end.

Definition app_run (env : Env) (tr : list app_event) : AppState :=
  fold_left (app_step env) tr initial_app.

(** The events of the hook among those of [App]. *)
Definition hook_events (tr : list app_event) : list event :=
  flat_map (fun e => match e with
                     | Changed _ => []
                     | GetForecast => [Invoked]
                     | Answered fetched => [Settled fetched]
                     end) tr.

(** What [App] shows in a state. *)
Definition view (st : AppState) : list block :=
  render (hook st) (hasFetched st).

End App.

Module ForecastPanel.
Import JsString UseForecast MetarStations.

Inductive block :=
| MessageBox (text : jsstring)
| StationLine (station : MetarStation)
| LastUpdatedLine (last_updated : jsstring) (runs : Q) (suffix : jsstring)
| PossibleSection (item : PossibleItem.t)
| DetailedSection (items : list DetailedItem.t)
| FinalCallSection (item : FinalCallItem.t)
| NoWeatherNotice.

Definition present {A} (o : option A) : bool :=
  match o with Some _ => true | None => false end.

Definition nonempty {A} (l : list A) : bool :=
  match l with [] => false | _ :: _ => true end.

(** [!possible && !detailed?.length && !finalCall] *)
Definition no_tier (d : ForecastResponse) : bool :=
  negb (present (possible d)) && negb (nonempty (detailed d)) &&
  negb (present (finalCall d)).

(** [runs_used !== 1 ? "s" : ""] *)
Definition plural (runs : Q) : jsstring :=
  if negb (Qeq_bool runs 1) then js "s" else [].

Definition section {A} (o : option A) (f : A -> block) : list block :=
  match o with Some x => [f x] | None => [] end.

(** The [return] that follows the early exit, top to bottom.  The time
    stamp is kept as received: [formatTime] only changes how it reads. *)
Definition sections (d : ForecastResponse) (station : option MetarStation) : list block :=
  section station StationLine ++
  match last_updated d with
  | Some (t :: ts) => [LastUpdatedLine (t :: ts) (runs_used d) (plural (runs_used d))]
  | _ => []
  end ++
  section (possible d) PossibleSection ++
  (if nonempty (detailed d) then [DetailedSection (detailed d)] else []) ++
  section (finalCall d) FinalCallSection ++
  (if no_tier d then [NoWeatherNotice] else []).

(** The blocks [ForecastPanel] returns: the message alone when there is a
    message and no tier, the sections otherwise. *)
Definition render (d : ForecastResponse) (station : option MetarStation) : list block :=
  match message d with
  | Some text =>
      if nonempty text && no_tier d then [MessageBox text]
      else sections d station
  | None => sections d station
  end.

(** The early [return]: a message to show and no tier. *)
Definition message_only (d : ForecastResponse) : bool :=
  match message d with
  | Some (_ :: _) => no_tier d
  | _ => false
  end.

End ForecastPanel.

(* --------------------------------------------------------------------- *)
(** ** The service worker                                                 *)
(* --------------------------------------------------------------------- *)

Module ServiceWorker.
Import JsString.

(** A settled promise. *)
Inductive promise (A : Type) :=
| Fulfilled (a : A)
| Rejected (reason : jsstring).
Arguments Fulfilled {A} a.
Arguments Rejected {A} reason.

(** [p.then(f)] and [p.catch(f)], for a callback that returns a promise (a
    callback that returns a plain value returns it [Fulfilled]). *)
Definition then_ {A B} (p : promise A) (f : A -> promise B) : promise B :=
  match p with
  | Fulfilled a => f a
  | Rejected r => Rejected r
  end.

Definition catch_ {A} (p : promise A) (f : jsstring -> promise A) : promise A :=
  match p with
  | Fulfilled a => Fulfilled a
  | Rejected r => f r
  end.

(** A request is its method and its URL, the URL written relative to the
    worker's origin so that ["/"] is the start page. *)
Record Request := {
  method : jsstring;
  url : jsstring
}.

Record Response := {
  body : jsstring;
  status : N;
  statusText : jsstring
}.

(** [CacheStorage]: the named caches in creation order, each a list of
    stored request URLs with their responses. *)
Definition Cache := list (jsstring * Response).
Definition CacheStorage := list (jsstring * Cache).

(** [Cache.match]: only a [GET] request matches, by URL. *)
Fixpoint cache_match (c : Cache) (req : Request) : option Response :=
  match c with
  | [] => None
  | (u, r) :: c' =>
      if strict_eq (method req) (js "GET") && strict_eq u (url req)
      then Some r
      else cache_match c' req
  end.

(** [caches.match]: the first match over the caches, [undefined] when no
    cache holds one; the promise it returns is fulfilled either way. *)
Fixpoint storage_match (cs : CacheStorage) (req : Request) : option Response :=
  match cs with
  | [] => None
  | (_, c) :: cs' =>
      match cache_match c req with
      | Some r => Some r
      | None => storage_match cs' req
      end
  end.

Definition caches_match (cs : CacheStorage) (req : Request) : promise (option Response) :=
  Fulfilled (storage_match cs req).

(** The request a bare ["/"] stands for. *)
Definition root_request : Request := {| method := js "GET"; url := js "/" |}.

Definition offline_response : Response :=
  {| body := js "Offline. Try again when connected.";
     status := 503;
     statusText := js "Service Unavailable" |}.

(** [r || k]: a [Response] is truthy, [undefined] is not. *)
Definition or_else (r : option Response) (k : promise Response) : promise Response :=
  match r with
  | Some x => Fulfilled x
  | None => k
  end.

(** *** The ["fetch"] listener as it is written *)

Definition quote : ascii := ascii_of_nat 34.
Definition dq : string := String quote EmptyString.
Definition nl : string := String (ascii_of_nat 10) EmptyString.

(** Lines 13 to 16 of the worker script, character for character; the
    long line is cut where [new Response(...)] and the two [.then(] end. *)
Definition fetch_listener_body : list string :=
  [ "self.addEventListener("; dq; "fetch"; dq; ", (e) => {"; nl;
    "  e.respondWith("; nl;
    "    fetch(e.request).catch(() => caches.match(e.request)";
    ".then((r) => r || caches.match("; dq; "/"; dq; ")";
    ".then((r2) => r2 || new Response(";
    dq; "Offline. Try again when connected."; dq;
    ", { status: 503, statusText: "; dq; "Service Unavailable"; dq;
    " })))" ]%string.

(** Lines 16 and 17. *)
Definition fetch_listener_end : list string :=
  [ nl; "  );"; nl; "});" ]%string.

(** The listener as the script has it. *)
Definition fetch_listener_text : string :=
  String.concat EmptyString (fetch_listener_body ++ fetch_listener_end).

(** The listener with the parenthesis that closes [.catch(] supplied. *)
Definition fetch_listener_repaired : string :=
  String.concat EmptyString (fetch_listener_body ++ [")"%string] ++ fetch_listener_end).

Definition is_opening (c : ascii) : bool :=
  Ascii.eqb c "(" || Ascii.eqb c "[" || Ascii.eqb c "{".

Definition is_closing (c : ascii) : bool :=
  Ascii.eqb c ")" || Ascii.eqb c "]" || Ascii.eqb c "}".

Definition closes (o c : ascii) : bool :=
  (Ascii.eqb o "(" && Ascii.eqb c ")") ||
  (Ascii.eqb o "[" && Ascii.eqb c "]") ||
  (Ascii.eqb o "{" && Ascii.eqb c "}").

(** The brackets left open by a text, innermost first, and whether the
    text ends inside a double-quoted literal; [None] when a closing bracket
    does not close the innermost open one.  Brackets inside a literal do
    not count. *)
Fixpoint scan (s : string) (open : list ascii) (in_string : bool)
  : option (list ascii * bool) :=
  match s with
  | EmptyString => Some (open, in_string)
  | String c s' =>
      if in_string then scan s' open (negb (Ascii.eqb c quote))
      else if Ascii.eqb c quote then scan s' open true
      else if is_opening c then scan s' (c :: open) false
      else if is_closing c then
        match open with
        | o :: open' => if closes o c then scan s' open' false else None
        | [] => None
        end
      else scan s' open false
  end.

(** What a JavaScript parser requires of a script before anything else:
    its brackets match and none is left open.  A script that fails this is
    rejected: the worker is not installed and none of its listeners ever
    runs. *)
Definition script_parses (s : string) : bool :=
  match scan s [] false with
  | Some ([], false) => true
  | _ => false
  end.

(** *** The ["fetch"] listener as it is meant *)

(** The promise handed to [e.respondWith] by the repaired listener;
    [network] is the browser's [fetch]. *)
Definition on_fetch (network : Request -> promise Response) (caches : CacheStorage)
    (request : Request) : promise Response :=
  catch_ (network request) (fun _ =>
    then_ (caches_match caches request) (fun r =>
      or_else r
        (then_ (caches_match caches root_request) (fun r2 =>
           or_else r2 (Fulfilled offline_response))))).

(** What the listener falls back to when the network is unreachable. *)
Definition offline_answer (caches : CacheStorage) (request : Request) : Response :=
  match storage_match caches request with
  | Some r => r
  | None =>
      match storage_match caches root_request with
      | Some r2 => r2
      | None => offline_response
      end
  end.

End ServiceWorker.

(* --------------------------------------------------------------------- *)
(** ** The back end: the run cache                                        *)
(* --------------------------------------------------------------------- *)

Module Backend.
Import JsString.

Local Open Scope Z_scope.

(** *** Run cache (design document, 4.1) *)

Inductive variable_kind := Temperature | Precipitation.

(** Modelled from the spec: the Grid Point of section 3, one decoded value
    (in thousandths of its unit); the decoder that produces it is not in
    the tree. *)
Record GridPoint := {
  run_timestamp : Z;
  lead_hour : Z;
  latitude : Z;
  longitude : Z;
  kind : variable_kind;
  value : Z;
  unit : jsstring
}.

Abbreviation Grid := (list GridPoint).
Abbreviation BBox := (Z * Z * Z * Z)%type.

(** The cache key: run identifier, lead hour, bounding box. *)
Abbreviation Key := (Z * Z * BBox)%type.

(** Modelled from the spec: why a fetch yields no data (4.2). *)
Inductive unavailable := NotPublished | NetworkFailure | DecodeFailure.

(** Modelled from the spec: the tagged result of 4.2 and section 9. *)
Inductive fetched :=
| Fetched (g : Grid)
| Unavailable (why : unavailable).

(** Modelled from the spec: the GFS Fetcher of 4.2 as the cache sees it,
    a remote lookup whose answer may depend on when it is asked. *)
Abbreviation Fetcher := (Key -> Z -> fetched).

(** Modelled from the spec: a cache entry, "the result with a recorded
    fetch time" (4.1). *)
Record CacheEntry := {
  grid : Grid;
  fetched_at : Z
}.

(** Modelled from the spec: the cache object of section 9, with its
    injected time-to-live in minutes. *)
Record RunCache := {
  ttl_minutes : Z;
  entries : gmap Key CacheEntry
}.

Definition DEFAULT_TTL_MINUTES : Z := 60.

Definition new_cache (ttl : Z) : RunCache :=
  {| ttl_minutes := ttl; entries := ∅ |}.

(** Modelled from the spec: "entries older than a configurable TTL ... are
    treated as expired" (4.1); the clock counts seconds. *)
Definition expired (c : RunCache) (e : CacheEntry) (now : Z) : bool :=
  fetched_at e + ttl_minutes c * 60 <? now.

Definition store (c : RunCache) (key : Key) (g : Grid) (now : Z) : RunCache :=
  {| ttl_minutes := ttl_minutes c;
     entries := <[key := {| grid := g; fetched_at := now |}]> (entries c) |}.

(** Modelled from the spec: the miss path of [get_or_fetch] (4.1): the
    Fetcher is asked; its data is stored with the fetch time; a failure is
    handed to the caller and stores nothing.  The third component lists
    the remote fetches issued. *)
Definition fetch_through (fetch : Fetcher) (c : RunCache) (now : Z) (key : Key)
  : fetched * RunCache * list (Key * Z) :=
  match fetch key now with
  | Fetched g => (Fetched g, store c key g now, [(key, now)])
  | Unavailable why => (Unavailable why, c, [(key, now)])
  end.

(** Modelled from the spec: [get_or_fetch(run_id, lead_hour, bbox)] of 4.1,
    with the clock reading passed in. *)
Definition get_or_fetch (fetch : Fetcher) (c : RunCache) (now : Z) (key : Key)
  : fetched * RunCache * list (Key * Z) :=
  match entries c !! key with
  | Some e =>
      if expired c e now then fetch_through fetch c now key
      else (Fetched (grid e), c, [])
  | None => fetch_through fetch c now key
  end.

(** Timestamps are seconds since the epoch. *)
Definition MINUTE : Z := 60.

(** *** The cache shared by concurrent requests (design document, 4.1, 5) *)

(** Modelled from the spec: a remote fetch in flight for a key, with the
    time it was issued and the requests that wait for its result
    ("concurrent requests for the same key must share one fetch", 4.1).
    Requests are told apart by a number. *)
Record Flight := {
  flight_key : Key;
  started_at : Z;
  waiting : list nat
}.

(** Modelled from the spec: the cache object as the executor of section 5
    sees it: its entries, the fetches in flight, the remote downloads
    started so far and the keys whose download has delivered (latest
    first), and the results handed to requests. *)
Record SharedCache := {
  cache : RunCache;
  flights : list Flight;
  downloads : list (Key * Z);
  delivered : list Key;
  answers : list (nat * fetched)
}.

Definition share (c : RunCache) : SharedCache :=
  {| cache := c; flights := []; downloads := []; delivered := [];
     answers := [] |}.

Definition flies (key : Key) (f : Flight) : bool :=
  bool_decide (flight_key f = key).

(** A fetch is in flight for the key. *)
Definition fetching (s : SharedCache) (key : Key) : bool :=
  existsb (flies key) (flights s).

(** Modelled from the spec: what [get_or_fetch] returns without a fetch,
    "cached data if present and not expired" (4.1). *)
Definition fresh (c : RunCache) (key : Key) (now : Z) : option Grid :=
  match entries c !! key with
  | Some e => if expired c e now then None else Some (grid e)
  | None => None
  end.

Definition join (request : nat) (key : Key) (f : Flight) : Flight :=
  if flies key f then
    {| flight_key := flight_key f; started_at := started_at f;
       waiting := waiting f ++ [request] |}
  else f.

(** Modelled from the spec: a request enters [get_or_fetch] (4.1).  Fresh
    data is returned at once.  Otherwise the request shares the fetch in
    flight for its key when there is one, and issues a remote download
    when there is none; it is suspended until the fetch delivers
    (section 5: "suspension points: any remote fetch"). *)
Definition on_request (s : SharedCache) (request : nat) (key : Key) (now : Z)
  : SharedCache :=
  match fresh (cache s) key now with
  | Some g =>
      {| cache := cache s; flights := flights s; downloads := downloads s;
         delivered := delivered s;
         answers := (request, Fetched g) :: answers s |}
  | None =>
      if fetching s key then
        {| cache := cache s; flights := map (join request key) (flights s);
           downloads := downloads s; delivered := delivered s;
           answers := answers s |}
      else
        {| cache := cache s;
           flights := {| flight_key := key; started_at := now;
                         waiting := [request] |} :: flights s;
           downloads := (key, now) :: downloads s;
           delivered := delivered s; answers := answers s |}
  end.

(** The first fetch in flight for the key, and the other fetches. *)
Fixpoint take_flight (key : Key) (fl : list Flight) : option (Flight * list Flight) :=
  match fl with
  | [] => None
  | f :: rest =>
      if flies key f then Some (f, rest)
      else match take_flight key rest with
           | Some (g, rest') => Some (g, f :: rest')
           | None => None
           end
  end.

(** Modelled from the spec: a fetch in flight delivers (4.1).  Its data is
    stored with the time the fetch was issued, as [get_or_fetch] does; a
    failure stores nothing; every request that waited receives the
    result.  A delivery for a key with no fetch in flight changes
    nothing. *)
Definition on_delivery (s : SharedCache) (key : Key) (result : fetched) : SharedCache :=
  match take_flight key (flights s) with
  | None => s
  | Some (f, rest) =>
      {| cache := match result with
                  | Fetched g => store (cache s) key g (started_at f)
                  | Unavailable _ => cache s
                  end;
         flights := rest;
         downloads := downloads s;
         delivered := key :: delivered s;
         answers := map (fun r => (r, result)) (waiting f) ++ answers s |}
  end.

(** Modelled from the spec: what happens to the shared cache: a request
    arrives, a remote fetch delivers.  Requests and deliveries for any keys
    may interleave (section 5). *)
Inductive cache_event :=
| Requested (request : nat) (key : Key) (now : Z)
| Delivered (key : Key) (result : fetched).

Definition cache_step (s : SharedCache) (e : cache_event) : SharedCache :=
  match e with
  | Requested request key now => on_request s request key now
  | Delivered key result => on_delivery s key result
  end.

Definition cache_run (s : SharedCache) (tr : list cache_event) : SharedCache :=
  fold_left cache_step tr s.

(** Downloads started for the key, downloads delivered for it, and fetches
    in flight for it. *)
Definition started (s : SharedCache) (key : Key) : nat :=
  length (List.filter (fun d => bool_decide (fst d = key)) (downloads s)).

Definition finished (s : SharedCache) (key : Key) : nat :=
  length (List.filter (fun k => bool_decide (k = key)) (delivered s)).

Definition flying (s : SharedCache) (key : Key) : nat :=
  length (List.filter (flies key) (flights s)).

(** The requests that wait for the fetch of the key. *)
Definition waiters (s : SharedCache) (key : Key) : list nat :=
  match take_flight key (flights s) with
  | Some (f, _) => waiting f
  | None => []
  end.

(** Requests issued at the same instant for the same key. *)
Definition simultaneous (key : Key) (now : Z) (requests : list nat) : list cache_event :=
  map (fun r => Requested r key now) requests.

(** No key has two fetches in flight, and every download started for a
    key has delivered or is the one in flight. *)
Definition accounted (s : SharedCache) : Prop :=
  forall key : Key,
    (flying s key <= 1)%nat /\
    started s key = (finished s key + flying s key)%nat.

(** Two keys, for examples. *)
Definition sample_key : Key := (2026110200, 6, (38, 40, -76, -74)).
Definition other_key : Key := (2026110200, 12, (38, 40, -76, -74)).
End Backend.

(* ===================================================================== *)
(** * Part II: theorems                                                   *)
(* ===================================================================== *)

Section JsStringFacts.
Import JsString.

Lemma strict_eq_true (a b : jsstring) : strict_eq a b = true <-> a = b.
Proof.
  revert b; induction a as [|x a IH]; intros [|y b]; simpl; try easy.
  rewrite andb_true_iff, N.eqb_eq, IH. split.
  - intros [-> ->]; reflexivity.
  - intros [= -> ->]; auto.
Qed.

Lemma trim_start_clean s : starts_clean (trim_start s).
Proof.
  induction s as [|c s IH]; simpl; [exact I|].
  destruct (is_trimmable c) eqn:E; [exact IH | exact E].
Qed.

Lemma trim_start_fixed s : starts_clean s -> trim_start s = s.
Proof. destruct s as [|c s]; simpl; [reflexivity|]. now intros ->. Qed.

Lemma trim_end_fixed s : ends_clean s -> trim_end s = s.
Proof.
  induction s as [|c s IH]; [reflexivity|].
  destruct s as [|d s].
  - simpl. now intros ->.
  - intros H. change (ends_clean (d :: s)) in H.
    specialize (IH H).
    change (trim_end (c :: d :: s))
      with (match trim_end (d :: s) with
            | [] => if is_trimmable c then [] else [c]
            | r => c :: r
            end).
    now rewrite IH.
Qed.

Lemma trim_end_clean s : ends_clean (trim_end s).
Proof.
  induction s as [|c s IH]; simpl; [exact I|].
  destruct (trim_end s) as [|d r] eqn:E.
  - destruct (is_trimmable c) eqn:Ec; simpl; auto.
  - exact IH.
Qed.

Lemma trim_end_starts s : starts_clean s -> starts_clean (trim_end s).
Proof.
  destruct s as [|c s]; simpl; [auto|]. intros Hc.
  destruct (trim_end s); [rewrite Hc|]; exact Hc.
Qed.

Lemma trim_clean s : starts_clean (trim s) /\ ends_clean (trim s).
Proof.
  split.
  - apply trim_end_starts, trim_start_clean.
  - apply trim_end_clean.
Qed.

Lemma trim_fixed s : starts_clean s -> ends_clean s -> trim s = s.
Proof.
  intros Hs He. unfold trim. rewrite (trim_start_fixed s Hs).
  now apply trim_end_fixed.
Qed.

(** *** The case-mapping table *)

Lemma table_ok_true : table_ok = true.
Proof. vm_compute. reflexivity. Qed.

Lemma assoc_In c t v : assoc c t = Some v -> In (c, v) t.
Proof.
  induction t as [|[k w] t IH]; simpl; [discriminate|].
  destruct (N.eqb_spec c k) as [->|_].
  - intros [= ->]. now left.
  - intros H. right. auto.
Qed.

Lemma image_ok_spec v :
  image_ok v = true ->
  v <> [] /\
  Forall (fun x => is_trimmable x = false /\ assoc x upper_table = None) v.
Proof.
  unfold image_ok. destruct v as [|y v]; [discriminate|].
  rewrite forallb_forall. intros Hall. split; [discriminate|].
  apply List.Forall_forall. intros x Hx. specialize (Hall x Hx).
  apply andb_true_iff in Hall as [H1 H2].
  apply negb_true_iff in H1. split; [exact H1|].
  unfold unmapped in H2.
  destruct (assoc x upper_table); [discriminate | reflexivity].
Qed.

Lemma upper_table_image c v :
  assoc c upper_table = Some v ->
  v <> [] /\
  Forall (fun x => is_trimmable x = false /\ assoc x upper_table = None) v.
Proof.
  intros H. apply assoc_In in H. apply image_ok_spec.
  pose proof table_ok_true as Hok. unfold table_ok in Hok.
  rewrite forallb_forall in Hok. exact (Hok (c, v) H).
Qed.

Lemma upper_cp_nonempty c : upper_cp c <> [].
Proof.
  unfold upper_cp. destruct (assoc c upper_table) as [v|] eqn:E.
  - now apply upper_table_image in E.
  - discriminate.
Qed.

Lemma upper_cp_fix c x : In x (upper_cp c) -> upper_cp x = [x].
Proof.
  unfold upper_cp at 1. destruct (assoc c upper_table) as [v|] eqn:E.
  - intros Hx. apply upper_table_image in E as [_ Hall].
    rewrite List.Forall_forall in Hall. destruct (Hall x Hx) as [_ Hnone].
    unfold upper_cp. now rewrite Hnone.
  - intros [<-|[]]. unfold upper_cp. now rewrite E.
Qed.

Lemma upper_cp_clean c :
  is_trimmable c = false -> Forall (fun x => is_trimmable x = false) (upper_cp c).
Proof.
  intros Hc. unfold upper_cp. destruct (assoc c upper_table) as [v|] eqn:E.
  - apply upper_table_image in E as [_ Hall].
    eapply List.Forall_impl; [|exact Hall]. now intros x [H _].
  - now constructor.
Qed.

Lemma toUpperCase_fix s :
  Forall (fun x => upper_cp x = [x]) s -> toUpperCase s = s.
Proof.
  induction 1 as [|x s Hx _ IH]; [reflexivity|].
  unfold toUpperCase in *. simpl. now rewrite Hx, IH.
Qed.

Lemma toUpperCase_idem s : toUpperCase (toUpperCase s) = toUpperCase s.
Proof.
  apply toUpperCase_fix. apply List.Forall_forall. intros x Hx.
  unfold toUpperCase in Hx. apply in_flat_map in Hx as (c & _ & Hc).
  exact (upper_cp_fix c x Hc).
Qed.

Lemma toUpperCase_nil s : toUpperCase s = [] -> s = [].
Proof.
  destruct s as [|c s]; [reflexivity|]. unfold toUpperCase. simpl.
  intros H. apply app_eq_nil in H as [H _]. now apply upper_cp_nonempty in H.
Qed.

Lemma toUpperCase_starts s : starts_clean s -> starts_clean (toUpperCase s).
Proof.
  destruct s as [|c s]; [auto|]. simpl. intros Hc.
  pose proof (upper_cp_clean c Hc) as Hall.
  pose proof (upper_cp_nonempty c) as Hne.
  unfold toUpperCase. simpl. destruct (upper_cp c) as [|x v]; [easy|].
  simpl. now inversion Hall.
Qed.

Lemma ends_clean_app a b :
  b <> [] -> ends_clean b -> ends_clean (a ++ b).
Proof.
  intros Hb Hc. induction a as [|x a IH]; [exact Hc|].
  simpl. destruct (a ++ b) as [|y r] eqn:E; [|exact IH].
  apply app_eq_nil in E as [_ ->]. easy.
Qed.

Lemma ends_clean_all v :
  Forall (fun x => is_trimmable x = false) v -> ends_clean v.
Proof.
  induction 1 as [|x v Hx Hv IH]; [exact I|].
  simpl. destruct v; [exact Hx | exact IH].
Qed.

Lemma toUpperCase_ends s : ends_clean s -> ends_clean (toUpperCase s).
Proof.
  induction s as [|c s IH]; [auto|].
  destruct s as [|d s].
  - simpl. intros Hc. unfold toUpperCase. simpl. rewrite app_nil_r.
    now apply ends_clean_all, upper_cp_clean.
  - intros H. change (ends_clean (d :: s)) in H. specialize (IH H).
    change (toUpperCase (c :: d :: s))
      with (upper_cp c ++ toUpperCase (d :: s)).
    apply ends_clean_app; [|exact IH].
    intros E. now apply toUpperCase_nil in E.
Qed.

(** Normalising an identifier twice is normalising it once. *)
Lemma normalise_idem s :
  toUpperCase (trim (toUpperCase (trim s))) = toUpperCase (trim s).
Proof.
  destruct (trim_clean s) as [Hs He].
  rewrite (trim_fixed (toUpperCase (trim s))).
  - apply toUpperCase_idem.
  - now apply toUpperCase_starts.
  - now apply toUpperCase_ends.
Qed.

End JsStringFacts.

(* --------------------------------------------------------------------- *)
(** ** Station lookup                                                     *)
(* --------------------------------------------------------------------- *)

Section MetarStationsFacts.
Import JsString MetarStations.

(** [Array.prototype.find] returns the first element the predicate accepts. *)
Lemma array_find_some {A} (p : A -> bool) (l : list A) (x : A) :
  array_find p l = Some x <->
  exists before after,
    l = before ++ x :: after /\ p x = true /\
    List.Forall (fun y => p y = false) before.
Proof.
  induction l as [|a l IH]; simpl.
  - split; [discriminate|]. intros ([|? ?] & ? & [=] & _).
  - destruct (p a) eqn:Ea.
    + split.
      * intros [= ->]. exists [], l. repeat split; auto.
      * intros ([|b before] & after & Hl & Hx & Hall).
        -- now injection Hl as -> _.
        -- injection Hl as -> _. inversion Hall; congruence.
    + rewrite IH. split.
      * intros (before & after & -> & Hx & Hall).
        exists (a :: before), after. repeat split; auto.
      * intros ([|b before] & after & Hl & Hx & Hall).
        -- injection Hl as -> _. congruence.
        -- injection Hl as -> ->. inversion Hall; subst.
           exists before, after. repeat split; auto.
Qed.

Lemma array_find_none {A} (p : A -> bool) (l : list A) :
  array_find p l = None <-> List.Forall (fun y => p y = false) l.
Proof.
  induction l as [|a l IH]; simpl.
  - split; auto.
  - destruct (p a) eqn:Ea.
    + split; [discriminate|]. inversion 1; congruence.
    + rewrite IH. split; [auto|]. now inversion 1.
Qed.

Lemma strict_eq_false (a b : jsstring) : strict_eq a b = false <-> a <> b.
Proof.
  rewrite <- (strict_eq_true a b). destruct (strict_eq a b); split; congruence.
Qed.

Example getStationByIcao_padded_lower :
  icao <$> getStationByIcao (js "  kdov ") = Some (js "KDOV").
Proof. vm_compute. reflexivity. Qed.

Example getStationByIcao_long_s :
  icao <$> getStationByIcao [0x6B; 0x62; 0x6F; 0x17F] = Some (js "KBOS").
Proof. vm_compute. reflexivity. Qed.

Example getStationByIcao_unknown : getStationByIcao (js "EGLL") = None.
Proof. vm_compute. reflexivity. Qed.

Example getStationByIcao_inner_space : getStationByIcao (js "K DOV") = None.
Proof. vm_compute. reflexivity. Qed.

(** C8.  [getStationByIcao] ignores surrounding white space and letter
    case: the answer for [s] is the answer for [s.trim().toUpperCase()].
    It is the first station of [METAR_STATIONS] whose [icao] equals that
    normalised string when there is one, and [undefined] otherwise. *)
Theorem getStationByIcao_normalised (s : jsstring) :
  let upper := toUpperCase (trim s) in
  getStationByIcao s = getStationByIcao upper /\
  (forall st,
     getStationByIcao s = Some st <->
     exists before after,
       METAR_STATIONS = before ++ st :: after /\ icao st = upper /\
       List.Forall (fun x => icao x <> upper) before) /\
  (getStationByIcao s = None <->
     List.Forall (fun x => icao x <> upper) METAR_STATIONS).
Proof.
  intros upper. split; [|split].
  - unfold getStationByIcao. fold upper. unfold upper.
    now rewrite normalise_idem.
  - intros st. unfold getStationByIcao. fold upper.
    rewrite array_find_some. split.
    + intros (before & after & Hl & Hx & Hall).
      exists before, after. split; [exact Hl|]. split.
      * now apply strict_eq_true.
      * eapply List.Forall_impl; [|exact Hall].
        intros x. apply strict_eq_false.
    + intros (before & after & Hl & Hx & Hall).
      exists before, after. split; [exact Hl|]. split.
      * now apply strict_eq_true.
      * eapply List.Forall_impl; [|exact Hall].
        intros x. apply strict_eq_false.
  - unfold getStationByIcao. fold upper. rewrite array_find_none.
    split; intros H; (eapply List.Forall_impl; [|exact H]);
      intros x; apply strict_eq_false.
Qed.

End MetarStationsFacts.

(* --------------------------------------------------------------------- *)
(** ** The fetch hook                                                     *)
(* --------------------------------------------------------------------- *)

Section UseForecastFacts.
Import JsString UseForecast.

Lemma run_snoc s tr e : run s (tr ++ [e]) = step (run s tr) e.
Proof. unfold run. now rewrite fold_left_app. Qed.

Lemma on_settle_loading fetched s : loading (on_settle fetched s) = false.
Proof. unfold on_settle. now destruct (try_block fetched). Qed.

Lemma on_settle_failure fetched e s :
  try_block fetched = Threw e ->
  data (on_settle fetched s) = JNull /\
  error (on_settle fetched s) = Some (catch_message e).
Proof. unfold on_settle. now intros ->. Qed.

Lemma on_settle_success fetched v s :
  try_block fetched = Resolved v ->
  data (on_settle fetched s) = v /\ error (on_settle fetched s) = error s.
Proof. unfold on_settle. now intros ->. Qed.

Lemma successes_keep_error s tr :
  forallb settles_well tr = true -> error (run s tr) = error s.
Proof.
  revert s. induction tr as [|e tr IH]; intros s; simpl; [reflexivity|].
  rewrite andb_true_iff. intros [He Hall].
  change (run s (e :: tr)) with (run (step s e) tr). rewrite (IH _ Hall).
  destruct e as [|f]; [discriminate|]. simpl in *.
  destruct (try_block f) as [v|x] eqn:Ef; [|discriminate].
  now destruct (on_settle_success f v s Ef) as [_ ->].
Qed.

(** The error cell after a trace in which nothing failed since the last
    invocation is empty. *)
Lemma quiet_error_none s tr :
  quiet_since_invoke tr = true -> error (run s tr) = None.
Proof.
  revert s. induction tr as [|e tr IH]; intros s; simpl; [discriminate|].
  change (run s (e :: tr)) with (run (step s e) tr).
  destruct e as [|f]; [|now apply IH].
  rewrite orb_true_iff. intros [H|H]; [now apply IH|].
  now rewrite (successes_keep_error _ _ H).
Qed.

Lemma fetchForecast_alone fetched s :
  settled_as_expected fetched (fetchForecast fetched s).
Proof.
  unfold settled_as_expected, fetchForecast. split.
  - apply on_settle_loading.
  - destruct (try_block fetched) as [v|e] eqn:E.
    + now destruct (on_settle_success fetched v (on_invoke s) E) as [-> ->].
    + destruct (on_settle_failure fetched e (on_invoke s) E) as [-> ->]. eauto.
Qed.

Example non_ok_uses_body :
  error (fetchForecast
           (Resolved {| ok := false; status := 422; text := Resolved (js "bad lat");
                        json_body := Threw ThrownOther |}) initial_state)
  = Some (js "bad lat").
Proof. reflexivity. Qed.

Example non_ok_empty_body_uses_status :
  error (fetchForecast
           (Resolved {| ok := false; status := 503; text := Resolved [];
                        json_body := Threw ThrownOther |}) initial_state)
  = Some (js "HTTP 503").
Proof. reflexivity. Qed.

Example overlapping_calls_state :
  run initial_state [Invoked; Invoked; Settled sample_failure; Settled sample_ok]
  = {| data := JObj []; error := Some (js "Failed to fetch"); loading := false |}.
Proof. reflexivity. Qed.

(** C9, as stated, fails: when two calls overlap and the first to settle
    fails, the second one completes successfully with the first one's
    error still in place, so [data] and [error] are both set. *)
Lemma overlapping_calls_break_exclusion :
  ~ (forall (tr : list event) (fetched : awaited HttpResponse),
       well_formed (tr ++ [Settled fetched]) ->
       settled_as_expected fetched (run initial_state (tr ++ [Settled fetched]))).
Proof.
  intros H.
  specialize (H [Invoked; Invoked; Settled sample_failure] sample_ok).
  destruct H as [_ [_ Herr]].
  - unfold well_formed. simpl. eauto.
  - discriminate Herr.
Qed.

(** C9, amended.  Once a [fetchForecast] call has completed, [loading] is
    false; if the call failed (a status that is not ok, or anything thrown)
    [data] is [null] and [error] is a string; if it succeeded [data] holds
    the parsed response, [error] is left as it was, and it is [null]
    provided no call has failed since the most recent invocation.  In
    particular a call that no other call overlaps leaves [data] and [error]
    mutually exclusive, whatever the state it started from. *)
Theorem fetchForecast_settled (s : HookState) (tr : list event)
    (fetched : awaited HttpResponse) :
  let s' := run s (tr ++ [Settled fetched]) in
  (loading s' = false /\
   match try_block fetched with
   | Threw e => data s' = JNull /\ error s' = Some (catch_message e)
   | Resolved v =>
       data s' = v /\ error s' = error (run s tr) /\
       (quiet_since_invoke tr = true -> error s' = None)
   end) /\
  settled_as_expected fetched (fetchForecast fetched s).
Proof.
  intros s'. split; [|apply fetchForecast_alone].
  unfold s'. rewrite run_snoc. simpl. split.
  - apply on_settle_loading.
  - destruct (try_block fetched) as [v|e] eqn:E.
    + destruct (on_settle_success fetched v (run s tr) E) as [Hd He].
      repeat split; [exact Hd | exact He |].
      intros Hq. rewrite He. now apply quiet_error_none.
    + now apply on_settle_failure.
Qed.

End UseForecastFacts.

(* --------------------------------------------------------------------- *)
(** ** The service worker                                                 *)
(* --------------------------------------------------------------------- *)

Section ServiceWorkerFacts.
Import JsString ServiceWorker.

Lemma on_fetch_online network caches request r :
  network request = Fulfilled r -> on_fetch network caches request = Fulfilled r.
Proof. unfold on_fetch. now intros ->. Qed.

Lemma on_fetch_offline network caches request reason :
  network request = Rejected reason ->
  on_fetch network caches request = Fulfilled (offline_answer caches request).
Proof.
  unfold on_fetch, offline_answer. intros ->. simpl.
  destruct (storage_match caches request); simpl; [reflexivity|].
  now destruct (storage_match caches root_request).
Qed.

Example offline_with_empty_caches request :
  on_fetch (fun _ => Rejected (js "TypeError")) [] request
  = Fulfilled offline_response.
Proof. reflexivity. Qed.

(** With the missing parenthesis supplied, the promise the ["fetch"]
    listener responds with is always fulfilled.  When the network fetch
    fails it is fulfilled with the cached response for the request if there
    is one, otherwise with the cached response for ["/"] if there is one,
    otherwise with the 503 response whose body is
    ["Offline. Try again when connected."]. *)
Lemma repaired_on_fetch_always_responds (network : Request -> promise Response)
    (caches : CacheStorage) (request : Request) :
  (exists r, on_fetch network caches request = Fulfilled r) /\
  (forall r, network request = Fulfilled r ->
             on_fetch network caches request = Fulfilled r) /\
  (forall reason, network request = Rejected reason ->
     (forall r, storage_match caches request = Some r ->
                on_fetch network caches request = Fulfilled r) /\
     (storage_match caches request = None ->
      forall r2, storage_match caches root_request = Some r2 ->
                 on_fetch network caches request = Fulfilled r2) /\
     (storage_match caches request = None ->
      storage_match caches root_request = None ->
      on_fetch network caches request = Fulfilled offline_response /\
      status offline_response = 503 /\
      body offline_response = js "Offline. Try again when connected.")).
Proof.
  split; [|split].
  - destruct (network request) as [r|reason] eqn:E.
    + exists r. now apply on_fetch_online.
    + eexists. now apply on_fetch_offline with (reason := reason).
  - intros r. apply on_fetch_online.
  - intros reason E. rewrite (on_fetch_offline _ _ _ _ E). unfold offline_answer.
    split; [|split].
    + now intros r ->.
    + now intros -> r2 ->.
    + now intros -> ->.
Qed.

Example install_listener_parses :
  script_parses "self.addEventListener('install', (e) => { self.skipWaiting(); });"
  = true.
Proof. reflexivity. Qed.

Lemma fetch_listener_repaired_parses :
  script_parses fetch_listener_repaired = true.
Proof. reflexivity. Qed.

(** Where the scan stops: after the line that holds [);] the parenthesis
    of [e.respondWith(] is still open, and the brace of the last line
    meets it. *)
Lemma fetch_listener_open_before_last_line :
  scan (String.concat EmptyString (fetch_listener_body ++ [nl; "  );"; nl]%string))
       [] false
  = Some (["("; "{"; "("]%char, false).
Proof. reflexivity. Qed.

(** C10 (defect).  As it is written, the ["fetch"] listener is not
    JavaScript: [.catch(] is closed by the parenthesis of the line that
    should close [e.respondWith(], which is never closed.  The script is
    rejected when the worker is registered, so no listener answers any
    request, online or offline; one more closing parenthesis makes the
    text parse. *)
Theorem fetch_listener_does_not_parse :
  script_parses fetch_listener_text = false /\
  script_parses fetch_listener_repaired = true.
Proof. split; reflexivity. Qed.

End ServiceWorkerFacts.

(* --------------------------------------------------------------------- *)
(** ** The run cache                                                      *)
(* --------------------------------------------------------------------- *)

Section RunCacheFacts.
Import JsString Backend.
Local Open Scope Z_scope.

Variable fetch : Key -> Z -> fetched.

Lemma get_or_fetch_miss (c : RunCache) now key :
  entries c !! key = None ->
  get_or_fetch fetch c now key = fetch_through fetch c now key.
Proof. unfold get_or_fetch. now intros ->. Qed.

(** An entry no older than the time-to-live is served without a fetch. *)
Lemma get_or_fetch_fresh (c : RunCache) now key e :
  entries c !! key = Some e ->
  now <= fetched_at e + ttl_minutes c * 60 ->
  get_or_fetch fetch c now key = (Fetched (grid e), c, []).
Proof.
  unfold get_or_fetch, expired. intros -> Hage.
  destruct (Z.ltb_spec (fetched_at e + ttl_minutes c * 60) now); [lia|reflexivity].
Qed.

(** An older entry is fetched again. *)
Lemma get_or_fetch_stale (c : RunCache) now key e :
  entries c !! key = Some e ->
  fetched_at e + ttl_minutes c * 60 < now ->
  get_or_fetch fetch c now key = fetch_through fetch c now key.
Proof.
  unfold get_or_fetch, expired. intros -> Hage.
  destruct (Z.ltb_spec (fetched_at e + ttl_minutes c * 60) now); [reflexivity|lia].
Qed.

(** An access touches no entry but the one of its key. *)
Lemma get_or_fetch_other (c : RunCache) now key key' :
  key' <> key ->
  entries (snd (fst (get_or_fetch fetch c now key'))) !! key = entries c !! key.
Proof.
  intros Hne. unfold get_or_fetch, fetch_through.
  destruct (entries c !! key') as [e|]; [destruct (expired c e now)|];
    try reflexivity;
    destruct (fetch key' now); simpl; try reflexivity;
    now apply lookup_insert_ne.
Qed.

Lemma store_lookup (c : RunCache) key g now :
  entries (store c key g now) !! key = Some {| grid := g; fetched_at := now |}.
Proof. apply lookup_insert_eq. Qed.

End RunCacheFacts.

Section RunCacheTtl.
Import JsString Backend.
Local Open Scope Z_scope.

(** C5.  With a time-to-live of 60 minutes: a request at [t0] for a key
    the cache does not hold asks the Fetcher and stores its data; the same
    request 59 minutes later is served from the cache, without a fetch and
    without a change to the cache; the same request 61 minutes after [t0]
    finds the entry expired and asks the Fetcher again, and the entry is
    replaced when that fetch delivers.  An expired entry is not purged: it
    stays when the refetch fails and when another key is requested. *)
Theorem cache_ttl_60_minutes (fetch : Key -> Z -> fetched) (c : RunCache)
    (key : Key) (t0 : Z) (g0 : Grid) :
  ttl_minutes c = 60 ->
  entries c !! key = None ->
  fetch key t0 = Fetched g0 ->
  let c0 := store c key g0 t0 in
  let t61 := t0 + 61 * MINUTE in
  get_or_fetch fetch c t0 key = (Fetched g0, c0, [(key, t0)]) /\
  get_or_fetch fetch c0 (t0 + 59 * MINUTE) key = (Fetched g0, c0, []) /\
  snd (get_or_fetch fetch c0 t61 key) = [(key, t61)] /\
  fst (fst (get_or_fetch fetch c0 t61 key)) = fetch key t61 /\
  (forall g, fetch key t61 = Fetched g ->
     snd (fst (get_or_fetch fetch c0 t61 key)) = store c0 key g t61) /\
  (forall why, fetch key t61 = Unavailable why ->
     snd (fst (get_or_fetch fetch c0 t61 key)) = c0) /\
  (forall key', key' <> key ->
     entries (snd (fst (get_or_fetch fetch c0 t61 key'))) !! key
     = Some {| grid := g0; fetched_at := t0 |}).
Proof.
  intros Httl Hmiss Hfetch c0 t61.
  assert (Hc0 : entries c0 !! key = Some {| grid := g0; fetched_at := t0 |})
    by apply store_lookup.
  assert (Httl0 : ttl_minutes c0 = 60) by exact Httl.
  assert (Hstale : get_or_fetch fetch c0 t61 key = fetch_through fetch c0 t61 key).
  { apply (get_or_fetch_stale fetch c0 t61 key _ Hc0).
    rewrite Httl0. unfold t61, MINUTE. simpl. lia. }
  split; [|split].
  - rewrite (get_or_fetch_miss fetch c t0 key Hmiss).
    unfold fetch_through. now rewrite Hfetch.
  - rewrite (get_or_fetch_fresh fetch c0 _ key _ Hc0); [reflexivity|].
    rewrite Httl0. unfold MINUTE. simpl. lia.
  - rewrite Hstale. unfold fetch_through.
    repeat split.
    + now destruct (fetch key t61).
    + now destruct (fetch key t61).
    + now intros g ->.
    + now intros why ->.
    + intros key' Hne. rewrite (get_or_fetch_other fetch c0 t61 key key' Hne).
      exact Hc0.
Qed.

(** The theorem at a run of 1 January 1970, 00Z, lead hour 6. *)
Lemma cache_ttl_60_minutes_witness :
  get_or_fetch (fun _ _ => Fetched []) (store (new_cache 60) (0, 6, (0, 0, 1, 1)) [] 0)
    (59 * MINUTE) (0, 6, (0, 0, 1, 1))
  = (Fetched [], store (new_cache 60) (0, 6, (0, 0, 1, 1)) [] 0, []).
Proof.
  exact (proj1 (proj2
    (cache_ttl_60_minutes (fun _ _ => Fetched []) (new_cache 60)
       (0, 6, (0, 0, 1, 1)) 0 [] eq_refl eq_refl eq_refl))).
Defined.

End RunCacheTtl.

(* --------------------------------------------------------------------- *)
(** ** The run cache under concurrent requests                            *)
(* --------------------------------------------------------------------- *)

Section SingleFlightFacts.
Import JsString Backend.

Lemma cache_run_app s tr tr' :
  cache_run s (tr ++ tr') = cache_run (cache_run s tr) tr'.
Proof. apply fold_left_app. Qed.

(** A fetch that is in flight for [key] is in flight for [key'] exactly
    when the two keys are the same. *)
Lemma flies_key key f key' :
  flies key f = true -> flies key' f = bool_decide (key = key').
Proof.
  unfold flies. intros H. apply bool_decide_eq_true in H. now rewrite H.
Qed.

Lemma flies_join request key f key' : flies key' (join request key f) = flies key' f.
Proof. unfold join. now destruct (flies key f). Qed.

Lemma filter_join request key key' fl :
  length (List.filter (flies key') (map (join request key) fl))
  = length (List.filter (flies key') fl).
Proof.
  induction fl as [|f fl IH]; simpl; [reflexivity|].
  rewrite flies_join. destruct (flies key' f); simpl; now rewrite IH.
Qed.

Lemma not_fetching_none key fl :
  existsb (flies key) fl = false -> List.filter (flies key) fl = [].
Proof.
  induction fl as [|f fl IH]; simpl; [reflexivity|].
  destruct (flies key f); simpl; [discriminate|exact IH].
Qed.

Lemma take_flight_some key fl f rest :
  take_flight key fl = Some (f, rest) ->
  flies key f = true /\
  forall key',
    length (List.filter (flies key') fl)
    = ((if bool_decide (key = key') then 1 else 0)
       + length (List.filter (flies key') rest))%nat.
Proof.
  revert f rest. induction fl as [|a fl IH]; simpl; intros f rest; [discriminate|].
  destruct (flies key a) eqn:Ea.
  - intros [= <- <-]. split; [exact Ea|]. intros key'.
    rewrite (flies_key _ _ key' Ea). now destruct (bool_decide (key = key')).
  - destruct (take_flight key fl) as [[g rest']|]; [|discriminate].
    intros [= <- <-]. destruct (IH g rest' eq_refl) as [Hg Hcount].
    split; [exact Hg|]. intros key'. simpl.
    destruct (flies key' a); simpl; rewrite Hcount; lia.
Qed.

Lemma take_flight_fetching key fl :
  existsb (flies key) fl = true -> exists f rest, take_flight key fl = Some (f, rest).
Proof.
  induction fl as [|a fl IH]; simpl; [discriminate|].
  destruct (flies key a); simpl; [now eauto|].
  intros H. destruct (IH H) as (f & rest & ->). now eauto.
Qed.

Lemma take_flight_none key fl :
  existsb (flies key) fl = false -> take_flight key fl = None.
Proof.
  induction fl as [|a fl IH]; simpl; [reflexivity|].
  destruct (flies key a); simpl; [discriminate|]. now intros ->%IH.
Qed.

(** The requests that wait for a key, through the joining of one more. *)
Lemma take_flight_join request key fl :
  match take_flight key fl with
  | Some (f, rest) =>
      take_flight key (map (join request key) fl)
      = Some (join request key f, map (join request key) rest)
  | None => take_flight key (map (join request key) fl) = None
  end.
Proof.
  induction fl as [|a fl IH]; simpl; [reflexivity|].
  rewrite flies_join. destruct (flies key a) eqn:Ea; [reflexivity|].
  destruct (take_flight key fl) as [[g rest']|]; now rewrite IH.
Qed.

(** Every event keeps the account of downloads and fetches in flight. *)
Lemma cache_step_accounted s e : accounted s -> accounted (cache_step s e).
Proof.
  intros Hs key'. destruct (Hs key') as [Hone Hsum].
  destruct e as [request key now|key result]; simpl.
  - unfold on_request. destruct (fresh (cache s) key now) as [g|].
    + split; assumption.
    + destruct (fetching s key) eqn:Hf.
      * unfold flying, started, finished in *. simpl.
        rewrite filter_join. split; assumption.
      * unfold flying, started, finished in *. simpl.
        change (flies key' {| flight_key := key; started_at := now;
                              waiting := [request] |})
          with (bool_decide (key = key')).
        destruct (bool_decide (key = key')) eqn:Hk; simpl; [|split; assumption].
        apply bool_decide_eq_true in Hk. subst key'.
        unfold fetching in Hf. rewrite (not_fetching_none _ _ Hf) in *.
        simpl in *. split; lia.
  - unfold on_delivery.
    destruct (take_flight key (flights s)) as [[f rest]|] eqn:Ht;
      [|split; assumption].
    destruct (take_flight_some _ _ _ _ Ht) as [_ Hcount].
    unfold flying, started, finished in *. simpl.
    rewrite Hcount in Hone, Hsum.
    destruct (bool_decide (key = key')); simpl in *; split; lia.
Qed.

Lemma share_accounted c : accounted (share c).
Proof. intros key. split; [apply Nat.le_0_l|reflexivity]. Qed.

Lemma cache_run_accounted tr : forall s, accounted s -> accounted (cache_run s tr).
Proof.
  induction tr as [|e tr IH]; intros s Hs; [exact Hs|].
  apply IH, cache_step_accounted, Hs.
Qed.

(** Requests for fresh data are answered at once and start nothing. *)
Lemma simultaneous_fresh key now g : forall requests s,
  fresh (cache s) key now = Some g ->
  let s' := cache_run s (simultaneous key now requests) in
  cache s' = cache s /\ flights s' = flights s /\ downloads s' = downloads s /\
  forall r, In r requests \/ In (r, Fetched g) (answers s) ->
            In (r, Fetched g) (answers s').
Proof.
  induction requests as [|r0 requests IH]; intros s Hfresh; simpl.
  - repeat split. now intros r [[]|H].
  - specialize (IH (on_request s r0 key now)).
    unfold on_request in *. rewrite Hfresh in *. simpl in IH.
    destruct (IH Hfresh) as (Hc & Hf & Hd & Ha).
    repeat split; try assumption.
    intros r [[<- | Hr]|Hr]; apply Ha.
    + right. now left.
    + now left.
    + right. now right.
Qed.

(** Requests for data the cache does not hold fresh wait for one fetch:
    the one in flight, or one that the first of them starts. *)
Lemma simultaneous_miss key now : forall requests s,
  fresh (cache s) key now = None ->
  let s' := cache_run s (simultaneous key now requests) in
  cache s' = cache s /\ answers s' = answers s /\
  downloads s' =
    match requests with
    | [] => downloads s
    | _ :: _ => if fetching s key then downloads s else (key, now) :: downloads s
    end /\
  forall r, In r requests \/ In r (waiters s key) -> In r (waiters s' key).
Proof.
  induction requests as [|r0 requests IH]; intros s Hfresh; simpl.
  - repeat split. now intros r [[]|H].
  - set (s1 := on_request s r0 key now).
    assert (H1 : cache s1 = cache s /\ answers s1 = answers s /\
                 fetching s1 key = true /\
                 downloads s1 = (if fetching s key then downloads s
                                 else (key, now) :: downloads s) /\
                 forall r, r = r0 \/ In r (waiters s key) -> In r (waiters s1 key)).
    { unfold s1, on_request. rewrite Hfresh.
      destruct (fetching s key) eqn:Hf; simpl.
      - repeat split.
        + unfold fetching in *. simpl.
          destruct (take_flight_fetching _ _ Hf) as (f & rest & Ht).
          pose proof (take_flight_join r0 key (flights s)) as Hj.
          rewrite Ht in Hj.
          destruct (existsb (flies key) (map (join r0 key) (flights s))) eqn:E;
            [reflexivity|].
          apply take_flight_none in E. congruence.
        + unfold waiters. simpl.
          pose proof (take_flight_join r0 key (flights s)) as Hj.
          destruct (take_flight_fetching _ _ Hf) as (f & rest & Ht).
          rewrite Ht in *. rewrite Hj.
          destruct (take_flight_some _ _ _ _ Ht) as [Hfl _].
          unfold join. rewrite Hfl. simpl.
          intros r [-> | Hr]; apply in_app_iff; [right; now left|now left].
      - repeat split.
        + unfold fetching. simpl. unfold flies at 1. simpl.
          now rewrite bool_decide_eq_true_2.
        + unfold waiters. simpl. unfold flies at 1. simpl.
          rewrite bool_decide_eq_true_2 by reflexivity. simpl.
          unfold fetching in Hf. rewrite (take_flight_none _ _ Hf).
          intros r [-> | []]. now left. }
    destruct H1 as (Hc1 & Ha1 & Hf1 & Hd1 & Hw1).
    destruct (IH s1) as (Hc & Ha & Hd & Hw); [now rewrite Hc1|].
    fold s1. repeat split.
    + now rewrite Hc.
    + now rewrite Ha.
    + rewrite Hd, Hf1. now destruct requests.
    + intros r [[<- | Hr]|Hr]; apply Hw.
      * right. apply Hw1. now left.
      * now left.
      * right. apply Hw1. now right.
Qed.

(** A delivery answers every request that waits for its key. *)
Lemma on_delivery_answers s key result r :
  In r (waiters s key) -> In (r, result) (answers (on_delivery s key result)).
Proof.
  unfold waiters, on_delivery.
  destruct (take_flight key (flights s)) as [[f rest]|]; [|intros []].
  intros Hr. simpl. apply in_app_iff. left.
  apply in_map_iff. now exists r.
Qed.

(** One request whose fetch delivers at once is a call of [get_or_fetch]:
    same result, same cache afterwards, same downloads. *)
Lemma request_then_delivery (fetch : Key -> Z -> fetched) c request key now :
  let s := cache_run (share c) [Requested request key now; Delivered key (fetch key now)] in
  (answers s, cache s, downloads s)
  = ([(request, fst (fst (get_or_fetch fetch c now key)))],
     snd (fst (get_or_fetch fetch c now key)),
     snd (get_or_fetch fetch c now key)).
Proof.
  simpl. unfold on_request, get_or_fetch, fresh, fetch_through. simpl.
  destruct (entries c !! key) as [e|]; [destruct (expired c e now)|];
    unfold on_delivery; simpl; unfold flies; simpl;
    rewrite ?bool_decide_eq_true_2 by reflexivity; simpl;
    try reflexivity; now destruct (fetch key now).
Qed.

Example two_requests_one_download :
  let s := cache_run (share (new_cache 60))
             [Requested 1 sample_key 0; Requested 2 sample_key 0;
              Requested 3 other_key 0] in
  downloads s = [(other_key, 0%Z); (sample_key, 0%Z)] /\
  waiters s sample_key = [1; 2]%nat /\
  answers (cache_step s (Delivered sample_key (Fetched [])))
  = [(1%nat, Fetched []); (2%nat, Fetched [])].
Proof. repeat split. Qed.

(** C6.  In every state the shared cache reaches, from any cache with
    nothing in flight and through any interleaving of requests and
    deliveries, a key has at most one fetch in flight, and the downloads
    started for it are those that delivered and the one in flight.
    Requests issued together for the key start at most one download: none
    when the data is fresh (each is answered from the cache) or a fetch is
    already in flight, exactly one otherwise; and when that fetch delivers,
    each of them receives its result. *)
Theorem single_flight (c : RunCache) (tr : list cache_event) (key : Key) :
  let s := cache_run (share c) tr in
  (flying s key <= 1)%nat /\
  started s key = (finished s key + flying s key)%nat /\
  forall (requests : list nat) (now : Z),
    let s' := cache_run s (simultaneous key now requests) in
    (flying s' key <= 1)%nat /\
    (length (downloads s') <= length (downloads s) + 1)%nat /\
    match fresh (cache s) key now with
    | Some g =>
        downloads s' = downloads s /\
        forall r, In r requests -> In (r, Fetched g) (answers s')
    | None =>
        downloads s' =
          match requests with
          | [] => downloads s
          | _ :: _ =>
              if fetching s key then downloads s else (key, now) :: downloads s
          end /\
        forall r result,
          In r requests ->
          In (r, result) (answers (cache_step s' (Delivered key result)))
    end.
Proof.
  intros s.
  assert (Hs : accounted s) by apply cache_run_accounted, share_accounted.
  split; [apply Hs|]. split; [apply Hs|].
  intros requests now s'.
  split; [apply (cache_run_accounted _ _ Hs)|].
  destruct (fresh (cache s) key now) as [g|] eqn:Hfresh.
  - destruct (simultaneous_fresh key now g requests s Hfresh) as (_ & _ & Hd & Ha).
    fold s' in Hd, Ha. rewrite Hd. split; [lia|]. split; [reflexivity|].
    intros r Hr. apply Ha. now left.
  - destruct (simultaneous_miss key now requests s Hfresh) as (_ & _ & Hd & Hw).
    fold s' in Hd, Hw. rewrite Hd. split; [|split; [reflexivity|]].
    + destruct requests; [lia|]. destruct (fetching s key); simpl; lia.
    + intros r result Hr. simpl. apply on_delivery_answers, Hw. now left.
Qed.

End SingleFlightFacts.

(* --------------------------------------------------------------------- *)
(** ** The components                                                     *)
(* --------------------------------------------------------------------- *)

Section ComponentFacts.
Import JsString MetarStations UseForecast.

(** Every listed station is found from its own code, by the lookup that
    normalises its argument and by the one of the select box that does
    not, and no two stations share a code (so the [key] of every option
    of the select box is its own). *)
Theorem stations_found_by_code :
  List.Forall
    (fun st => getStationByIcao (icao st) = Some st /\
               LocationBar.handleChange (icao st) = Some st)
    METAR_STATIONS /\
  List.NoDup (map icao METAR_STATIONS).
Proof.
  split.
  - repeat constructor; vm_compute; reflexivity.
  - repeat (constructor; [vm_compute; intuition discriminate|]). constructor.
Qed.

(** [handleChange] hands over a station exactly when the selected value
    is the code of a listed one, and then that station. *)
Theorem handleChange_selects (value : jsstring) :
  (forall st, LocationBar.handleChange value = Some st <->
              In st METAR_STATIONS /\ icao st = value) /\
  (LocationBar.handleChange value = None <->
   ~ In value LocationBar.option_values).
Proof.
  assert (Hfound : List.Forall
            (fun st => LocationBar.handleChange (icao st) = Some st) METAR_STATIONS).
  { repeat constructor; vm_compute; reflexivity. }
  rewrite List.Forall_forall in Hfound.
  split.
  - intros st. split.
    + unfold LocationBar.handleChange. rewrite array_find_some.
      intros (before & after & Hl & Hx & _). apply strict_eq_true in Hx.
      split; [|exact Hx]. rewrite Hl. apply in_or_app. right. now left.
    + intros [Hin <-]. now apply Hfound.
  - unfold LocationBar.handleChange, LocationBar.option_values.
    rewrite array_find_none, List.Forall_forall, in_map_iff. split.
    + intros Hall (st & Hst & Hin). apply Hall in Hin.
      apply strict_eq_false in Hin. contradiction.
    + intros Hnot st Hin. apply strict_eq_false. intros Heq.
      apply Hnot. now exists st.
Qed.

(** [ForecastPanel] returns at least one element for every value of its
    declared prop type. *)
Lemma panel_never_empty (d : ForecastResponse) (station : option MetarStation) :
  ForecastPanel.render d station <> [].
Proof.
  unfold ForecastPanel.render, ForecastPanel.sections, ForecastPanel.no_tier,
    ForecastPanel.section, ForecastPanel.present, ForecastPanel.nonempty.
  destruct (message d) as [[|c text]|], station, (last_updated d) as [[|t ts]|],
    (possible d), (detailed d), (finalCall d); simpl; discriminate.
Qed.

(** Once a call that nothing overlaps has completed, and provided the
    body of an ok response that parses is of the declared type
    [ForecastResponse], [App] shows exactly one block below the location
    bar: on success the forecast panel with the parsed body, which renders
    at least one element; on failure the error box with the message
    caught, or the notice that there is no data when that message is the
    empty string.  The loading box is not shown. *)
Theorem app_after_a_call (s : HookState) (fetched : awaited HttpResponse)
    (station : MetarStation) :
  (forall v, try_block fetched = Resolved v -> is_Some (as_ForecastResponse v)) ->
  let blocks := App.render (fetchForecast fetched s) true in
  match try_block fetched with
  | Resolved v =>
      blocks = [App.Panel v] /\
      exists d, as_ForecastResponse v = Some d /\
                ForecastPanel.render d (Some station) <> []
  | Threw e =>
      blocks = match catch_message e with
               | [] => [App.NoDataNotice]
               | c :: m => [App.ErrorBox (c :: m)]
               end
  end.
Proof.
  intros Htyped. unfold fetchForecast, on_settle, App.render, App.panel_slot.
  destruct (try_block fetched) as [v|e]; simpl.
  - destruct (Htyped v eq_refl) as [d Hd]. split.
    + destruct v; try discriminate Hd. reflexivity.
    + exists d. split; [exact Hd|apply panel_never_empty].
  - now destruct (catch_message e).
Qed.

Lemma app_after_a_call_witness :
  App.render (fetchForecast sample_forecast initial_state) true
  = [App.Panel sample_body].
Proof.
  refine (proj1 (app_after_a_call initial_state sample_forecast App.first_station _)).
  intros v [= <-]. vm_compute. eauto.
Defined.

Example app_after_overlapping_calls :
  App.render
    (run initial_state [Invoked; Invoked; Settled sample_failure; Settled sample_ok])
    true
  = [App.ErrorBox (js "Failed to fetch"); App.Panel (JObj [])].
Proof. reflexivity. Qed.

End ComponentFacts.

Section ForecastPanelFacts.
Import JsString MetarStations UseForecast ForecastPanel.

Lemma sections_no_message_box d station text :
  ~ In (MessageBox text) (sections d station).
Proof.
  unfold sections, section. rewrite !in_app_iff.
  destruct station, (last_updated d) as [[|? ?]|], (possible d),
    (nonempty (detailed d)), (finalCall d), (no_tier d); simpl;
    intuition discriminate.
Qed.

Lemma sections_notice d station :
  In NoWeatherNotice (sections d station) <-> no_tier d = true.
Proof.
  unfold sections, section. rewrite !in_app_iff.
  destruct station, (last_updated d) as [[|? ?]|], (possible d),
    (nonempty (detailed d)), (finalCall d), (no_tier d); simpl;
    intuition discriminate.
Qed.

(** [ForecastPanel] shows the message alone exactly when the response has
    a non-empty message and no window in any tier; it shows the notice
    that no winter weather is indicated exactly when there is no window in
    any tier and no message to show; and the two never appear together. *)
Theorem panel_message_or_notice (d : ForecastResponse) (station : option MetarStation) :
  (forall text,
     render d station = [MessageBox text] <->
     message d = Some text /\ text <> [] /\ no_tier d = true) /\
  (In NoWeatherNotice (render d station) <->
     no_tier d = true /\ (message d = None \/ message d = Some [])) /\
  (forall text, In (MessageBox text) (render d station) ->
     render d station = [MessageBox text]).
Proof.
  unfold render. split; [|split].
  - intros text. destruct (message d) as [m|] eqn:Em.
    + destruct m as [|c m]; simpl.
      * split.
        -- intros H. exfalso. apply (sections_no_message_box d station text).
           rewrite H. now left.
        -- intros ([= <-] & Hne & _). congruence.
      * destruct (no_tier d) eqn:En.
        -- split; [intros [= <-]; repeat split; congruence|].
           now intros ([= <-] & _).
        -- split; [|intros (_ & _ & ?); discriminate].
           intros H. exfalso. apply (sections_no_message_box d station text).
           rewrite H. now left.
    + split; [|intros ([=] & _)].
      intros H. exfalso. apply (sections_no_message_box d station text).
      rewrite H. now left.
  - destruct (message d) as [[|c m]|] eqn:Em; simpl.
    + rewrite sections_notice. intuition.
    + destruct (no_tier d) eqn:En.
      * split; [intros [[=]|[]]|]. intros (_ & [[=]|[=]]).
      * rewrite sections_notice. rewrite En. intuition discriminate.
    + rewrite sections_notice. intuition.
  - intros text. destruct (message d) as [[|c m]|] eqn:Em; simpl;
      try (intros H; now apply sections_no_message_box in H).
    destruct (no_tier d).
    + now intros [[= <-]|[]].
    + intros H. now apply sections_no_message_box in H.
Qed.

End ForecastPanelFacts.

(* ===================================================================== *)
(** * Part III: further properties of the front end                       *)
(* ===================================================================== *)

(* --------------------------------------------------------------------- *)
(** ** Which inputs select a station                                      *)
(* --------------------------------------------------------------------- *)

Section SpellingFacts.
Import JsString MetarStations.

Lemma trim_start_padding l s :
  List.Forall (fun c => is_trimmable c = true) l -> trim_start (l ++ s) = trim_start s.
Proof. induction 1 as [|c l Hc _ IH]; simpl; [reflexivity|]. now rewrite Hc. Qed.

Lemma trim_end_blank r :
  List.Forall (fun c => is_trimmable c = true) r -> trim_end r = [].
Proof. induction 1 as [|c r Hc _ IH]; simpl; [reflexivity|]. now rewrite IH, Hc. Qed.

Lemma trim_end_padding s r :
  List.Forall (fun c => is_trimmable c = true) r -> trim_end (s ++ r) = trim_end s.
Proof.
  intros Hr. induction s as [|c s IH]; simpl.
  - now apply trim_end_blank.
  - now rewrite IH.
Qed.

Lemma trim_padding l s r :
  List.Forall (fun c => is_trimmable c = true) l ->
  List.Forall (fun c => is_trimmable c = true) r ->
  trim (l ++ s ++ r) = trim s.
Proof.
  intros Hl Hr. unfold trim. rewrite (trim_start_padding l _ Hl).
  induction s as [|c s IH]; simpl.
  - assert (H : trim_start r = []).
    { clear -Hr. induction Hr as [|c r Hc _ IH]; simpl; [reflexivity|].
      now rewrite Hc. }
    now rewrite H.
  - destruct (is_trimmable c); [exact IH|].
    exact (trim_end_padding (c :: s) r Hr).
Qed.

Lemma is_prefix_app v r : is_prefix v (v ++ r) = true.
Proof. induction v as [|x v IH]; simpl; [reflexivity|]. now rewrite N.eqb_refl. Qed.

Lemma spellsb_spells c k : spellsb c k = true -> spells c k.
Proof.
  unfold spellsb, spells.
  rewrite !orb_true_iff, !andb_true_iff, !N.eqb_eq. tauto.
Qed.

Lemma letters_spelt_true : letters_spelt = true.
Proof. vm_compute. reflexivity. Qed.

Lemma capitals_ok_true : capitals_ok = true.
Proof. vm_compute. reflexivity. Qed.

Lemma stations_plain :
  List.Forall (fun st => plain_code (icao st) = true) METAR_STATIONS.
Proof. repeat constructor; vm_compute; reflexivity. Qed.

Lemma stations_round_trip :
  List.Forall
    (fun st => array_find (fun x => strict_eq (icao x) (icao st)) METAR_STATIONS = Some st)
    METAR_STATIONS.
Proof. repeat constructor; vm_compute; reflexivity. Qed.

(** A code point whose upper case is the single capital letter [x]
    spells [x]. *)
Lemma single_image_spells c x :
  assoc c upper_table = Some [x] -> capital x = true -> spells c x.
Proof.
  intros E Hx. apply assoc_In in E.
  pose proof letters_spelt_true as H. unfold letters_spelt in H.
  rewrite forallb_forall in H. specialize (H _ E). simpl in H.
  rewrite Hx in H. simpl in H. now apply spellsb_spells.
Qed.

(** A string whose upper case is a plain code spells it letter by
    letter. *)
Lemma upper_is_plain_code t : forall K,
  plain_code K = true -> toUpperCase t = K -> List.Forall2 spells t K.
Proof.
  induction t as [|c t IH]; intros K HK Hup.
  - simpl in Hup. subst K. constructor.
  - unfold toUpperCase in Hup. simpl in Hup. fold (toUpperCase t) in Hup.
    unfold upper_cp in Hup. destruct (assoc c upper_table) as [v|] eqn:E.
    + destruct v as [|x [|y v]].
      * now destruct (upper_table_image c [] E) as [Hne _].
      * simpl in Hup. subst K. simpl in HK.
        apply andb_true_iff in HK as [HK HK']. apply andb_true_iff in HK as [Hx _].
        constructor; [now apply single_image_spells | now apply IH].
      * exfalso. subst K. simpl in HK.
        apply andb_true_iff in HK as [HK _]. apply andb_true_iff in HK as [_ Hno].
        apply negb_true_iff in Hno.
        assert (Hyes : expands_into ((x :: y :: v) ++ toUpperCase t) = true).
        { unfold expands_into. apply existsb_exists.
          exists (c, x :: y :: v). split; [now apply assoc_In|].
          simpl snd. apply (is_prefix_app (x :: y :: v)). }
        simpl in Hyes. congruence.
    + simpl in Hup. subst K. simpl in HK.
      apply andb_true_iff in HK as [_ HK'].
      constructor; [now left | now apply IH].
Qed.

Lemma capital_upper c k : capital k = true -> spells c k -> upper_cp c = [k].
Proof.
  intros Hk Hs. pose proof capitals_ok_true as H. unfold capitals_ok in H.
  apply andb_true_iff in H as [H Hlong]. apply andb_true_iff in H as [H Hdot].
  rewrite forallb_forall in H.
  unfold capital in Hk. apply existsb_exists in Hk as (k' & Hin & Hk').
  apply N.eqb_eq in Hk'. subst k'. specialize (H k Hin).
  apply andb_true_iff in H as [Hun Hsmall].
  destruct Hs as [->|[->|[[-> ->]|[-> ->]]]].
  - unfold upper_cp. unfold unmapped in Hun.
    now destruct (assoc k upper_table).
  - now apply strict_eq_true.
  - now apply strict_eq_true.
  - now apply strict_eq_true.
Qed.

(** A string that spells a plain code has it as its upper case. *)
Lemma spelling_upper t K :
  plain_code K = true -> List.Forall2 spells t K -> toUpperCase t = K.
Proof.
  intros HK H. induction H as [|c k t K Hck _ IH]; [reflexivity|].
  simpl in HK. apply andb_true_iff in HK as [HK HK'].
  apply andb_true_iff in HK as [Hk _].
  unfold toUpperCase. simpl. fold (toUpperCase t).
  now rewrite (capital_upper c k Hk Hck), IH.
Qed.

(** The inputs [getStationByIcao] accepts, exactly: once trimmed, the
    input has the letters of the station's code in order, each written
    as the capital letter, as the small letter, or, for I and S, as
    dotless i (U+0131) or long s (U+017F).  No other input selects a
    station, and no input selects two. *)
Theorem getStationByIcao_accepts (s : jsstring) (st : MetarStation) :
  getStationByIcao s = Some st <->
  In st METAR_STATIONS /\ List.Forall2 spells (trim s) (icao st).
Proof.
  pose proof stations_plain as Hplain. rewrite List.Forall_forall in Hplain.
  pose proof stations_round_trip as Hfound. rewrite List.Forall_forall in Hfound.
  unfold getStationByIcao. split.
  - intros H. apply array_find_some in H as (before & after & Hl & Hx & _).
    apply strict_eq_true in Hx.
    assert (Hin : In st METAR_STATIONS).
    { rewrite Hl. apply in_or_app. right. now left. }
    split; [exact Hin|]. apply upper_is_plain_code; auto.
  - intros [Hin Hsp]. rewrite (spelling_upper _ _ (Hplain st Hin) Hsp).
    now apply Hfound.
Qed.

(** White space around the input does not matter, whatever the input. *)
Theorem getStationByIcao_padding (l s r : jsstring) :
  List.Forall (fun c => is_trimmable c = true) l ->
  List.Forall (fun c => is_trimmable c = true) r ->
  getStationByIcao (l ++ s ++ r) = getStationByIcao s.
Proof.
  intros Hl Hr. unfold getStationByIcao. now rewrite trim_padding.
Qed.

Lemma getStationByIcao_padding_witness :
  getStationByIcao ([0x20; 0x9] ++ js "kdov" ++ [0xA; 0xA0])
  = getStationByIcao (js "kdov").
Proof.
  apply (getStationByIcao_padding [0x20; 0x9] (js "kdov") [0xA; 0xA0]);
    repeat constructor.
Defined.

End SpellingFacts.

(* --------------------------------------------------------------------- *)
(** ** The request URL                                                    *)
(* --------------------------------------------------------------------- *)

Section UrlFacts.
Import JsString UseForecast.

Lemma js_inj a b : js a = js b -> a = b.
Proof.
  unfold js. intros H.
  rewrite <- (string_of_list_ascii_of_string a), <- (string_of_list_ascii_of_string b).
  f_equal. revert H. generalize (list_ascii_of_string a) (list_ascii_of_string b).
  induction l as [|x l IH]; intros [|y l']; simpl; try discriminate; [reflexivity|].
  intros [= Hxy Hl]. f_equal; [|now apply IH].
  rewrite <- (ascii_N_embedding x), <- (ascii_N_embedding y). now rewrite Hxy.
Qed.

Lemma uint_digits d :
  List.Forall (fun c => is_digit c = true) (js (NilEmpty.string_of_uint d)).
Proof. induction d; simpl; constructor; auto. Qed.

Lemma decimal_digits n : List.Forall (fun c => is_digit c = true) (decimal n).
Proof.
  unfold decimal, NilZero.string_of_uint.
  destruct (N.to_uint n) eqn:E; try (rewrite <- E; apply uint_digits).
  repeat constructor.
Qed.

Lemma decimal_nonempty n : decimal n <> [].
Proof.
  unfold decimal, NilZero.string_of_uint. destruct (N.to_uint n); discriminate.
Qed.

Lemma to_uint_nonnil n : N.to_uint n <> Decimal.Nil.
Proof.
  destruct n; [discriminate|]. apply DecimalPos.Unsigned.to_uint_nonnil.
Qed.

Lemma decimal_inj n m : decimal n = decimal m -> n = m.
Proof.
  unfold decimal. intros H. apply js_inj in H.
  apply DecimalN.Unsigned.to_uint_inj.
  assert (Hn := NilZero.usu _ (to_uint_nonnil n)).
  assert (Hm := NilZero.usu _ (to_uint_nonnil m)).
  rewrite H in Hn. congruence.
Qed.

Lemma strip_zeros_sub ds c : In c (strip_zeros ds) -> In c ds.
Proof.
  induction ds as [|d ds IH]; simpl; [auto|].
  destruct (strip_zeros ds) as [|x r].
  - destruct (d =? 0); simpl; tauto.
  - simpl. simpl in IH. intuition.
Qed.

Lemma strip_zeros_pad ds :
  exists k, ds = strip_zeros ds ++ repeat 0 k.
Proof.
  induction ds as [|d ds [k IH]]; [now exists 0%nat|]. simpl.
  destruct (strip_zeros ds) as [|x r].
  - destruct (N.eqb_spec d 0) as [->|_].
    + exists (S k). simpl in *. now rewrite IH.
    + exists k. simpl in *. now rewrite IH.
  - exists k. simpl in *. now rewrite IH at 1.
Qed.

Lemma strip_zeros_inj a b :
  length a = length b -> strip_zeros a = strip_zeros b -> a = b.
Proof.
  intros Hlen Hs.
  destruct (strip_zeros_pad a) as [k Ha], (strip_zeros_pad b) as [j Hb].
  assert (k = j).
  { rewrite Ha, Hb, Hs in Hlen. rewrite !length_app, !repeat_length in Hlen. lia. }
  subst j. rewrite Ha, Hb. now rewrite Hs.
Qed.

Lemma fraction_digits_small f c :
  f < 10000 -> In c (fraction_digits f) -> c < 10.
Proof.
  unfold fraction_digits. intros Hf [<-|[<-|[<-|[<-|[]]]]];
    try (apply N.mod_upper_bound; discriminate).
  apply N.Div0.div_lt_upper_bound. lia.
Qed.

Lemma fraction_digits_inj f g :
  f < 10000 -> g < 10000 -> fraction_digits f = fraction_digits g -> f = g.
Proof.
  unfold fraction_digits. intros Hf Hg [= H1 H2 H3 H4].
  pose proof (N.Div0.div_mod f 10). pose proof (N.Div0.div_mod g 10).
  pose proof (N.Div0.div_mod (f / 10) 10). pose proof (N.Div0.div_mod (g / 10) 10).
  pose proof (N.Div0.div_mod (f / 100) 10). pose proof (N.Div0.div_mod (g / 100) 10).
  replace (f / 10 / 10) with (f / 100) in * by (rewrite N.Div0.div_div; reflexivity).
  replace (g / 10 / 10) with (g / 100) in * by (rewrite N.Div0.div_div; reflexivity).
  replace (f / 100 / 10) with (f / 1000) in * by (rewrite N.Div0.div_div; reflexivity).
  replace (g / 100 / 10) with (g / 1000) in * by (rewrite N.Div0.div_div; reflexivity).
  lia.
Qed.

Lemma fraction_to_string_point f :
  fraction_to_string f = [] \/ exists f', fraction_to_string f = 0x2E :: f'.
Proof.
  unfold fraction_to_string.
  destruct (strip_zeros (fraction_digits f)); [now left | right; simpl; eauto].
Qed.

(** The fraction as printed is a point and digits, if anything. *)
Lemma fraction_to_string_chars f :
  f < 10000 ->
  List.Forall (fun c => is_digit c = true \/ c = 0x2E) (fraction_to_string f).
Proof.
  intros Hf. unfold fraction_to_string.
  destruct (strip_zeros (fraction_digits f)) as [|d ds] eqn:E; [constructor|].
  constructor; [now right|].
  apply List.Forall_forall. intros c Hc. apply in_map_iff in Hc as (x & <- & Hx).
  rewrite <- E in Hx. apply strip_zeros_sub in Hx.
  apply (fraction_digits_small f x Hf) in Hx. left.
  unfold is_digit, digit. apply andb_true_iff. split; apply N.leb_le; lia.
Qed.

Lemma map_digit_inj (l : list N) : forall l', map digit l = map digit l' -> l = l'.
Proof.
  induction l as [|u l IH]; intros [|v l']; simpl; try discriminate; [reflexivity|].
  unfold digit at 1 3. intros [= Huv Hl]. f_equal; [lia | now apply IH].
Qed.

Lemma fraction_to_string_inj f g :
  f < 10000 -> g < 10000 -> fraction_to_string f = fraction_to_string g -> f = g.
Proof.
  intros Hf Hg H. apply fraction_digits_inj; auto.
  apply strip_zeros_inj; [reflexivity|]. unfold fraction_to_string in H.
  destruct (strip_zeros (fraction_digits f)) as [|d ds],
           (strip_zeros (fraction_digits g)) as [|e es];
    try discriminate; [reflexivity|].
  apply map_digit_inj. simpl in *. congruence.
Qed.

Lemma magnitude_chars a :
  List.Forall (fun c => is_digit c = true \/ c = 0x2E) (magnitude_to_string a).
Proof.
  unfold magnitude_to_string. apply Forall_app. split.
  - eapply List.Forall_impl; [|apply decimal_digits]. auto.
  - apply fraction_to_string_chars. apply N.mod_upper_bound. discriminate.
Qed.

Lemma magnitude_starts_with_digit a :
  exists c r, magnitude_to_string a = c :: r /\ is_digit c = true.
Proof.
  unfold magnitude_to_string.
  pose proof (decimal_digits (a / 10000)) as Hd.
  pose proof (decimal_nonempty (a / 10000)) as Hne.
  destruct (decimal (a / 10000)) as [|c r]; [congruence|].
  inversion Hd; subst. simpl. eauto.
Qed.

(** Digits followed by nothing or by a point: the digits and the rest are
    determined. *)
Lemma digits_then_point (a : list N) : forall b f g : list N,
  List.Forall (fun c => is_digit c = true) a ->
  List.Forall (fun c => is_digit c = true) b ->
  (f = [] \/ exists f', f = 0x2E :: f') ->
  (g = [] \/ exists g', g = 0x2E :: g') ->
  a ++ f = b ++ g -> a = b /\ f = g.
Proof.
  induction a as [|x a IH]; intros b f g Ha Hb Hf Hg; simpl.
  - destruct b as [|y b]; simpl; [auto|].
    intros ->. exfalso. inversion Hb as [|? ? Hy _]; subst.
    destruct Hf as [[=]|[f' [= -> _]]]. discriminate Hy.
  - destruct b as [|y b]; simpl.
    + intros <-. exfalso. inversion Ha as [|? ? Hx _]; subst.
      destruct Hg as [[=]|[g' [= -> _]]]. discriminate Hx.
    + intros [= -> H]. inversion Ha; inversion Hb; subst.
      destruct (IH b f g) as [-> ->]; auto.
Qed.

Lemma magnitude_inj a b : magnitude_to_string a = magnitude_to_string b -> a = b.
Proof.
  unfold magnitude_to_string. intros H.
  apply digits_then_point in H as [Hi Hfr];
    try apply decimal_digits; try apply fraction_to_string_point.
  apply decimal_inj in Hi.
  apply fraction_to_string_inj in Hfr;
    try (apply N.mod_upper_bound; discriminate).
  rewrite (N.Div0.div_mod a 10000), (N.Div0.div_mod b 10000). now rewrite Hi, Hfr.
Qed.

Lemma number_to_string_chars x :
  List.Forall (fun c => is_digit c = true \/ c = 0x2D \/ c = 0x2E) (number_to_string x).
Proof.
  unfold number_to_string. apply Forall_app. split.
  - destruct (x <? 0)%Z; [|constructor].
    constructor; [right; now left | constructor].
  - eapply List.Forall_impl; [|apply magnitude_chars].
    intros c [H|H]; auto.
Qed.

Lemma number_to_string_unreserved x :
  List.Forall (fun c => unreserved c = true) (number_to_string x).
Proof.
  eapply List.Forall_impl; [|apply number_to_string_chars].
  intros c [H|[-> | ->]]; [|reflexivity|reflexivity].
  unfold unreserved, is_digit in *. rewrite H. now rewrite orb_true_r.
Qed.

(** [encodeURIComponent] changes nothing in a string of unreserved
    characters, and does not throw on it. *)
Lemma encode_unreserved s :
  List.Forall (fun c => unreserved c = true) s -> encodeURIComponent s = Some s.
Proof.
  induction 1 as [|c s Hc _ IH]; [reflexivity|]. simpl. now rewrite IH, Hc.
Qed.

Lemma forecast_url_is_plain env lat lon :
  forecast_url env lat lon = Some (plain_url env lat lon).
Proof.
  unfold forecast_url, plain_url.
  now rewrite !(encode_unreserved _ (number_to_string_unreserved _)).
Qed.

(** Two strings that agree up to the first occurrence of a character they
    both lack before it agree before and after it. *)
Lemma split_at_first (c : N) (a : list N) : forall b r r' : list N,
  ~ In c a -> ~ In c b -> a ++ c :: r = b ++ c :: r' -> a = b /\ r = r'.
Proof.
  induction a as [|x a IH]; intros [|y b] r r' Ha Hb; simpl.
  - now intros [= ->].
  - intros [= -> _]. exfalso. apply Hb. now left.
  - intros [= -> _]. exfalso. apply Ha. now left.
  - intros [= -> H]. destruct (IH b r r') as [-> ->]; auto.
    + intros Hin. apply Ha. now right.
    + intros Hin. apply Hb. now right.
Qed.

Lemma number_to_string_inj x y :
  number_to_string x = number_to_string y -> x = y.
Proof.
  unfold number_to_string.
  destruct (magnitude_starts_with_digit (Z.abs_N x)) as (c & r & Hc & Hd).
  destruct (magnitude_starts_with_digit (Z.abs_N y)) as (c' & r' & Hc' & Hd').
  destruct (Z.ltb_spec x 0) as [Hx|Hx], (Z.ltb_spec y 0) as [Hy|Hy].
  - intros [= E]. apply magnitude_inj in E. lia.
  - rewrite Hc'. intros [= <- _]. discriminate Hd'.
  - rewrite Hc. intros [= -> _]. discriminate Hd.
  - intros E. apply magnitude_inj in E. lia.
Qed.

Lemma some_eq {A} (a b : A) : Some a = Some b -> a = b.
Proof. now intros [= ->]. Qed.

Lemma number_to_string_no_amp x : ~ In 0x26 (number_to_string x).
Proof.
  intros H. pose proof (number_to_string_unreserved x) as Hall.
  rewrite List.Forall_forall in Hall. now apply Hall in H.
Qed.

Example forecast_url_dover :
  forecast_url {| DEV := true; VITE_API_URL := None |} 391295 (-754660)
  = Some (js "/api/forecast?lat=39.1295&lon=-75.466&complete_only=1").
Proof. vm_compute. reflexivity. Qed.

(** For coordinates within range the URL handed to [fetch] is built
    without an exception and without a single escape: it is the base,
    [/forecast?lat=], the latitude in decimal, [&lon=], the longitude in
    decimal, and [&complete_only=1]. *)
Theorem forecast_url_plain (env : Env) (lat lon : Z) :
  valid_coordinates lat lon ->
  forecast_url env lat lon = Some (plain_url env lat lon) /\
  List.Forall (fun c => is_digit c = true \/ c = 0x2D \/ c = 0x2E)
    (number_to_string lat ++ number_to_string lon).
Proof.
  intros _. split; [apply forecast_url_is_plain|].
  apply Forall_app. split; apply number_to_string_chars.
Qed.

Lemma forecast_url_plain_witness :
  forecast_url {| DEV := false; VITE_API_URL := None |} 391295 (-754660)
  = Some (plain_url {| DEV := false; VITE_API_URL := None |} 391295 (-754660)).
Proof.
  refine (proj1 (forecast_url_plain {| DEV := false; VITE_API_URL := None |}
                   391295 (-754660) _)).
  unfold valid_coordinates. lia.
Defined.

(** The URL determines the coordinates: two requests with the same base
    have the same URL only if their latitudes and their longitudes are
    the same. *)
Theorem forecast_url_injective (env : Env) (lat lon lat' lon' : Z) :
  valid_coordinates lat lon -> valid_coordinates lat' lon' ->
  forecast_url env lat lon = forecast_url env lat' lon' ->
  lat = lat' /\ lon = lon'.
Proof.
  intros _ _. rewrite !forecast_url_is_plain. unfold plain_url.
  intros H. apply (some_eq (A := jsstring)) in H. do 2 apply app_inv_head in H.
  change (js "&lon=") with (0x26 :: js "lon=") in H.
  change (js "&complete_only=1") with (0x26 :: js "complete_only=1") in H.
  rewrite <- !app_comm_cons in H.
  apply split_at_first in H as [Hlat H]; try apply number_to_string_no_amp.
  apply app_inv_head in H.
  apply split_at_first in H as [Hlon _]; try apply number_to_string_no_amp.
  split; now apply number_to_string_inj.
Qed.

Lemma forecast_url_injective_witness :
  (391295 = 391295 /\ -754660 = -754660)%Z.
Proof.
  refine (forecast_url_injective {| DEV := true; VITE_API_URL := None |}
            391295 (-754660) 391295 (-754660) _ _ eq_refl);
    unfold valid_coordinates; lia.
Defined.

End UrlFacts.

(* --------------------------------------------------------------------- *)
(** ** The hook and [App] over time                                       *)
(* --------------------------------------------------------------------- *)

Section AppFacts.
Import JsString MetarStations UseForecast App.

(** While [loading] is set no error is: an invocation clears the error
    and every completion clears [loading]. *)
Lemma loading_means_no_error tr : forall s,
  (loading s = true -> error s = None) ->
  loading (run s tr) = true -> error (run s tr) = None.
Proof.
  induction tr as [|e tr IH]; intros s Hs; [exact Hs|].
  change (run s (e :: tr)) with (run (step s e) tr). apply IH.
  destruct e as [|f]; simpl; [reflexivity|].
  rewrite on_settle_loading. discriminate.
Qed.

(** While [loading] is set a call is in flight. *)
Lemma loading_means_in_flight tr : forall s k n,
  (loading s = true -> (0 < k)%nat) ->
  in_flight k tr = Some n ->
  loading (run s tr) = true -> (0 < n)%nat.
Proof.
  induction tr as [|e tr IH]; intros s k n Hs Hn.
  - simpl in Hn. injection Hn as <-. exact Hs.
  - change (run s (e :: tr)) with (run (step s e) tr).
    destruct e as [|f]; simpl in Hn.
    + apply (IH _ (S k) n); [intros _; lia | exact Hn].
    + destruct k as [|k]; [discriminate|].
      apply (IH _ k n); [|exact Hn].
      simpl. rewrite on_settle_loading. discriminate.
Qed.

Lemma render_loading s hf : In LoadingBox (render s hf) <-> loading s = true.
Proof.
  unfold render, panel_slot, when. rewrite !in_app_iff.
  destruct (loading s), (error s) as [[|? ?]|], (truthy (data s)), (data s), hf;
    simpl; intuition discriminate.
Qed.

Lemma render_error s hf text :
  In (ErrorBox text) (render s hf) <-> error s = Some text /\ text <> [].
Proof.
  unfold render, panel_slot, when. rewrite !in_app_iff.
  destruct (loading s), (error s) as [[|? ?]|], (truthy (data s)), (data s), hf;
    simpl; intuition (try discriminate; try congruence).
Qed.

Lemma render_panel s hf d :
  In (Panel d) (render s hf) <->
  d = data s /\ truthy (data s) = true /\ loading s = false.
Proof.
  unfold render, panel_slot, when. rewrite !in_app_iff.
  destruct (loading s), (error s) as [[|? ?]|], (truthy (data s)) eqn:Et, hf;
    simpl; try (destruct (data s)); simpl;
    intuition (try discriminate; try congruence).
Qed.

Lemma render_notice s hf :
  In NoDataNotice (render s hf) <->
  truthy (data s) = false /\ loading s = false /\
  truthy_string (error s) = false /\ hf = true.
Proof.
  unfold render, panel_slot, when, truthy_string. rewrite !in_app_iff.
  destruct (loading s), (error s) as [[|? ?]|], (truthy (data s)) eqn:Et, hf;
    simpl; try (destruct (data s)); simpl;
    intuition (try discriminate; try congruence).
Qed.

(** Whatever calls have been made and however they overlapped, [App]
    never shows the loading box together with the error box, the forecast
    panel or the no-data notice, and never the no-data notice together
    with the error box or the panel; the loading box is only shown while
    a call is in flight; and the no-data notice is not shown before the
    button has been pressed. *)
Theorem app_blocks_exclusive (tr : list event) (hf : bool) :
  let blocks := render (run initial_state tr) hf in
  (In LoadingBox blocks ->
     (forall text, ~ In (ErrorBox text) blocks) /\
     (forall d, ~ In (Panel d) blocks) /\
     ~ In NoDataNotice blocks /\
     (forall n, in_flight 0 tr = Some n -> (0 < n)%nat)) /\
  (In NoDataNotice blocks ->
     (forall text, ~ In (ErrorBox text) blocks) /\
     (forall d, ~ In (Panel d) blocks) /\
     hf = true).
Proof.
  intros blocks. unfold blocks. split.
  - rewrite render_loading. intros Hl. repeat split.
    + intros text. rewrite render_error. intros [He _].
      rewrite (loading_means_no_error tr initial_state) in He;
        [discriminate | discriminate | exact Hl].
    + intros d. rewrite render_panel. intros (_ & _ & H). congruence.
    + rewrite render_notice. intros (_ & H & _). congruence.
    + intros n Hn.
      apply (loading_means_in_flight tr initial_state 0%nat n);
        [discriminate | exact Hn | exact Hl].
  - rewrite render_notice. intros (Ht & Hl & He & Hf). repeat split.
    + intros text. rewrite render_error. intros [H Hne].
      rewrite H in He. destruct text; [congruence | discriminate].
    + intros d. rewrite render_panel. intros (_ & H & _). congruence.
    + exact Hf.
Qed.

(** A response with a status that is not ok always ends in the error box,
    whatever the state before the call and whatever its body would parse
    to: the box holds the body when there is one and [HTTP] with the
    status otherwise, and nothing else is shown. *)
Theorem non_ok_shows_error (s : HookState) (st : N) (t : jsstring)
    (parsed : awaited json) (hf : bool) :
  let r := {| ok := false; status := st; text := Resolved t; json_body := parsed |} in
  render (fetchForecast (Resolved r) s) hf = [ErrorBox (error_text t st)] /\
  error_text t st <> [] /\
  (t <> [] -> error_text t st = t) /\
  (t = [] -> error_text t st = js "HTTP " ++ decimal st).
Proof.
  intros r. unfold r.
  assert (Hne : error_text t st <> []).
  { unfold error_text, http_status_message. destruct t; discriminate. }
  repeat split.
  - unfold fetchForecast, on_settle, render, panel_slot. simpl.
    destruct (error_text t st) as [|c m]; [congruence|]. reflexivity.
  - exact Hne.
  - destruct t; [congruence | reflexivity].
  - intros ->. reflexivity.
Qed.

Lemma in_snoc {A} (x : A) l y : In x l -> In x (l ++ [y]).
Proof. intros H. apply in_or_app. now left. Qed.

(** What the hook holds was delivered: the forecast in [data] is the
    parsed body of a response with an ok status that some call received,
    and the text in [error] is the message of what some call threw (the
    body or status line of a response that was not ok included).  The
    hook never shows as a forecast the body of a response that was not
    ok. *)
Theorem hook_provenance (tr : list event) :
  let s := run initial_state tr in
  (data s <> JNull ->
     exists r, In (Settled (Resolved r)) tr /\ ok r = true /\
               json_body r = Resolved (data s)) /\
  (forall m, error s = Some m ->
     exists f e, In (Settled f) tr /\ try_block f = Threw e /\
                 m = catch_message e).
Proof.
  induction tr as [|ev tr IH] using rev_ind; simpl.
  - split; [congruence | discriminate].
  - rewrite run_snoc. destruct IH as [IHd IHe].
    destruct ev as [|f]; simpl.
    + split.
      * intros H. destruct (IHd H) as (r & Hin & Hr). exists r.
        split; [now apply in_snoc | exact Hr].
      * discriminate.
    + unfold on_settle. destruct (try_block f) as [v|e] eqn:Ef; simpl.
      * split.
        -- intros _. unfold try_block in Ef.
           destruct f as [r|x]; [|discriminate].
           destruct (ok r) eqn:Hok; simpl in Ef.
           ++ exists r. split; [apply in_or_app; right; now left|]. now split.
           ++ destruct (text r); discriminate.
        -- intros m Hm. destruct (IHe m Hm) as (g & e & Hin & Hg).
           exists g, e. split; [now apply in_snoc | exact Hg].
      * split; [congruence|]. intros m [= <-].
        exists f, e. split; [apply in_or_app; right; now left|]. now split.
Qed.

(** *** [App] as a state machine *)

Lemma first_station_listed : In first_station METAR_STATIONS.
Proof. now left. Qed.

Lemma handleChange_listed value station :
  LocationBar.handleChange value = Some station -> In station METAR_STATIONS.
Proof.
  unfold LocationBar.handleChange. rewrite array_find_some.
  intros (before & after & Hl & _). rewrite Hl. apply in_or_app. right. now left.
Qed.

Lemma app_run_snoc env tr e :
  app_run env (tr ++ [e]) = app_step env (app_run env tr) e.
Proof. unfold app_run. now rewrite fold_left_app. Qed.

Lemma hook_events_snoc tr e :
  hook_events (tr ++ [e]) = hook_events tr ++ hook_events [e].
Proof. unfold hook_events. now rewrite flat_map_app. Qed.

(** The hook inside [App] sees exactly the presses of the button and the
    settled requests, in order. *)
Lemma app_hook_trace env tr :
  hook (app_run env tr) = run initial_state (hook_events tr).
Proof.
  induction tr as [|e tr IH] using rev_ind; [reflexivity|].
  rewrite app_run_snoc, hook_events_snoc. unfold run in *.
  rewrite fold_left_app, <- IH.
  destruct e as [value| |f]; simpl; try reflexivity.
  now destruct (LocationBar.handleChange value).
Qed.

Lemma app_selected_listed env tr :
  In (selectedStation (app_run env tr)) METAR_STATIONS.
Proof.
  induction tr as [|e tr IH] using rev_ind; [apply first_station_listed|].
  rewrite app_run_snoc. destruct e as [value| |f]; simpl; try exact IH.
  destruct (LocationBar.handleChange value) as [station|] eqn:E; [|exact IH].
  simpl. now apply handleChange_listed in E.
Qed.

Lemma stations_in_range :
  List.Forall
    (fun st => valid_coordinates (MetarStations.lat st) (MetarStations.lon st))
    METAR_STATIONS.
Proof. repeat constructor; unfold valid_coordinates; simpl; lia. Qed.

Lemma app_requests_listed env tr :
  List.Forall
    (fun u => exists station,
       In station METAR_STATIONS /\
       valid_coordinates (MetarStations.lat station) (MetarStations.lon station) /\
       u = Some (plain_url env (MetarStations.lat station) (MetarStations.lon station)))
    (requests (app_run env tr)).
Proof.
  pose proof stations_in_range as Hrange. rewrite List.Forall_forall in Hrange.
  induction tr as [|e tr IH] using rev_ind; [constructor|].
  rewrite app_run_snoc. destruct e as [value| |f]; simpl; try exact IH.
  - now destruct (LocationBar.handleChange value).
  - constructor; [|exact IH].
    exists (selectedStation (app_run env tr)).
    pose proof (app_selected_listed env tr) as Hin.
    split; [exact Hin|]. split; [now apply Hrange|].
    apply forecast_url_is_plain.
Qed.

Lemma app_not_fetched env tr :
  hasFetched (app_run env tr) = false ->
  requests (app_run env tr) = [] /\
  List.Forall (fun e => e <> Invoked) (hook_events tr).
Proof.
  induction tr as [|e tr IH] using rev_ind; [now split; [|constructor]|].
  rewrite app_run_snoc, hook_events_snoc.
  destruct e as [value| |f]; simpl.
  - destruct (LocationBar.handleChange value); simpl; intros H;
      rewrite app_nil_r; now apply IH.
  - discriminate.
  - intros H. destruct (IH H) as [Hr Hall]. split; [exact Hr|].
    apply Forall_app. split; [exact Hall|]. now repeat constructor.
Qed.

Lemma no_invocation_nothing_settles tr :
  List.Forall (fun e => e <> Invoked) tr -> well_formed tr -> tr = [].
Proof.
  destruct tr as [|e tr]; [reflexivity|].
  intros Hall [n Hn]. inversion Hall as [|? ? He _]; subst.
  destruct e; [congruence|]. discriminate Hn.
Qed.

(** Whatever the user does and however requests are answered: the
    selected station is always one of [METAR_STATIONS], so the select box
    always has an option for its value; every URL handed to [fetch] was
    built without an exception and is the plain URL of a listed station,
    whose coordinates are within range; and until the button is pressed
    for the first time no request has been made and nothing is shown
    below the location bar. *)
Theorem app_invariants (env : Env) (tr : list app_event) :
  let st := app_run env tr in
  In (selectedStation st) METAR_STATIONS /\
  In (icao (selectedStation st)) LocationBar.option_values /\
  List.Forall
    (fun u => exists station,
       In station METAR_STATIONS /\
       valid_coordinates (MetarStations.lat station) (MetarStations.lon station) /\
       u = Some (plain_url env (MetarStations.lat station) (MetarStations.lon station)))
    (requests st) /\
  (hasFetched st = false ->
     requests st = [] /\
     (well_formed (hook_events tr) -> view st = [])).
Proof.
  intros st. unfold st. split; [apply app_selected_listed|].
  split; [apply in_map, app_selected_listed|].
  split; [apply app_requests_listed|].
  intros Hf. destruct (app_not_fetched env tr Hf) as [Hr Hall].
  split; [exact Hr|]. intros Hwf.
  unfold view. rewrite Hf, app_hook_trace.
  now rewrite (no_invocation_nothing_settles _ Hall Hwf).
Qed.

End AppFacts.

(* --------------------------------------------------------------------- *)
(** ** The sections of the panel                                          *)
(* --------------------------------------------------------------------- *)

Section PanelSectionFacts.
Import JsString MetarStations UseForecast ForecastPanel.

Lemma render_message_only d station :
  message_only d = true -> exists text, render d station = [MessageBox text].
Proof.
  unfold message_only, render.
  destruct (message d) as [[|c m]|]; try discriminate.
  intros ->. now exists (c :: m).
Qed.

Lemma render_sections d station :
  message_only d = false -> render d station = sections d station.
Proof.
  unfold message_only, render.
  destruct (message d) as [[|c m]|]; try reflexivity.
  now intros ->.
Qed.

Lemma message_only_no_tier d : message_only d = true -> no_tier d = true.
Proof. unfold message_only. now destruct (message d) as [[|? ?]|]. Qed.

(** Each tier has its section exactly when the response holds that tier;
    the detailed section lists the detailed items of the response, all of
    them and in their order; the station line and the line with the time
    of the last update are shown exactly when there is a station, or a
    non-empty time stamp, and the panel is not reduced to its message. *)
Theorem panel_sections (d : ForecastResponse) (station : option MetarStation) :
  let blocks := render d station in
  (forall p, In (PossibleSection p) blocks <-> possible d = Some p) /\
  (forall items, In (DetailedSection items) blocks <->
                 items = detailed d /\ items <> []) /\
  (forall f, In (FinalCallSection f) blocks <-> finalCall d = Some f) /\
  (forall st, In (StationLine st) blocks <->
              station = Some st /\ message_only d = false) /\
  (forall t runs suffix,
     In (LastUpdatedLine t runs suffix) blocks <->
     last_updated d = Some t /\ t <> [] /\ runs = runs_used d /\
     suffix = plural (runs_used d) /\ message_only d = false).
Proof.
  intros blocks. unfold blocks. clear blocks.
  destruct (message_only d) eqn:Em.
  - destruct (render_message_only d station Em) as [text ->].
    apply message_only_no_tier in Em. unfold no_tier in Em.
    destruct (possible d), (detailed d), (finalCall d); try discriminate.
    repeat split; intros; simpl in *;
      intuition (try discriminate; try congruence).
  - rewrite (render_sections d station Em). unfold sections, section.
    split; [|split; [|split; [|split]]]; intros; rewrite !in_app_iff;
      destruct station, (last_updated d) as [[|? ?]|], (possible d),
        (detailed d), (finalCall d); simpl; destruct (no_tier d); simpl;
      intuition (try discriminate; try congruence).
Qed.

End PanelSectionFacts.
